(** * credit-review: the voice session of [src/App.tsx]

    A shallow embedding of the [App] component's session logic: the
    transcript log ([addMessage]), the playback scheduler
    ([stopAllAudio] and the audio branch of [handleMessage]), and the
    session life cycle ([startSession], [stopSession] and the callbacks
    handed to the live service).

    React state ([useState]) and the component's refs ([useRef]) are the
    fields of one record; the browser and SDK objects the refs point to
    (audio source nodes, audio contexts, the microphone stream, the live
    session) live in a small heap addressed by index, so that what
    happens to an object stays observable once the component dropped its
    reference.  Handlers are written in a state-and-exception monad
    [JS]: a JavaScript [throw] leaves every mutation made so far in
    place, and [try_catch] is the source's [try { } catch (e) { }].
    State setters are applied in the order they are called, which is the
    order in which React runs the updaters queued on one cell.

    The component is driven by events, one handler at a time (the
    browser's event loop).  The two [async] functions are cut at their
    [await]s: [startSession] into three stretches, [handleMessage] into
    the stretch before its [await] and the one after, so that runs in
    which other callbacks come in between are runs of the model too.

    Times (the playback cursor, [AudioContext.currentTime], buffer
    durations) are JavaScript numbers in the source; here they are exact
    rationals. *)

From Stdlib Require Import ZArith NArith QArith Qminmax Qabs Qround Lqa Lia List String Ascii Bool.
From Stdlib.Strings Require Import Byte.
From stdpp Require Import base list.
Import ListNotations.

Local Open Scope list_scope.

(** ** JavaScript strings *)

(** A JavaScript string is a sequence of UTF-16 code units. *)
Definition JSString : Type := list N.

Definition js (s : string) : JSString :=
  List.map N_of_ascii (list_ascii_of_string s).

(** Truthiness of a string: every string but the empty one. *)
Definition truthy (s : JSString) : bool :=
  match s with
  | [] => false
  | _ :: _ => true
  end.

(** The code units [String.prototype.trim] strips: ECMAScript's
    WhiteSpace and LineTerminator productions. *)
Definition is_whitespace (c : N) : bool :=
  ((9 <=? c) && (c <=? 13) || (c =? 32) || (c =? 160) || (c =? 5760)
   || (8192 <=? c) && (c <=? 8202) || (c =? 8232) || (c =? 8233)
   || (c =? 8239) || (c =? 8287) || (c =? 12288) || (c =? 65279))%N.

Fixpoint trimStart (s : JSString) : JSString :=
  match s with
  | [] => []
  | c :: s' => if is_whitespace c then trimStart s' else s
  end.

Definition trim (s : JSString) : JSString :=
  rev (trimStart (rev (trimStart s))).

(** [prev + x.text] where [text] is an optional field: an absent field
    is [undefined], which string concatenation spells out. *)
Definition concat_text (prev : JSString) (text : option JSString) : JSString :=
  match text with
  | Some t => prev ++ t
  | None => prev ++ js "undefined"
  end.

(** ** [src/types.ts] *)

Inductive Role : Type := user | agent.

Record Message : Type := {
  role : Role;
  text : JSString;
  timestamp : Z
}.

Inductive ConnectionStatus : Type := IDLE | CONNECTING | CONNECTED | ERROR.

(** ** Inbound messages ([LiveServerMessage] of the SDK, the fields read
    by [handleMessage]); every field is optional. *)

Record Transcription : Type := { transcription_text : option JSString }.
Record Blob : Type := { data : option JSString }.
Record Part : Type := { inlineData : option Blob }.
Record Content : Type := { parts : option (list Part) }.

Record ServerContent : Type := {
  inputTranscription : option Transcription;
  outputTranscription : option Transcription;
  turnComplete : bool;
  interrupted : bool;
  modelTurn : option Content
}.

Record LiveServerMessage : Type := { serverContent : option ServerContent }.

(** ** Browser and SDK objects *)

(** An [AudioBuffer]: its duration is its length in sample frames over
    its sample rate. *)
Record AudioBuffer : Type := {
  buffer_length : N;
  buffer_sampleRate : positive
}.

Definition duration (b : AudioBuffer) : Q :=
  Z.of_N (buffer_length b) # buffer_sampleRate b.

(** Where an [AudioBufferSourceNode] is in its life: [start] not yet
    called, started (waiting for its start time or playing), played to
    its end, or cut by [stop]. *)
Inductive Playback : Type := Unstarted | Scheduled | Finished | Stopped.

Record SourceNode : Type := {
  node_buffer : option AudioBuffer;
  node_connected : bool;
  node_when : option Q;
  node_playback : Playback;
  node_onended : bool
}.

Record AudioContext : Type := {
  ctx_sampleRate : positive;
  currentTime : Q;
  ctx_closed : bool
}.

(** A [MediaStream] (one flag for its tracks) and a live session. *)
Record MediaStream : Type := { tracks_stopped : bool }.
Record Session : Type := { session_closed : bool }.

Record Browser : Type := {
  sourceNodes : list SourceNode;
  audioContexts : list AudioContext;
  mediaStreams : list MediaStream;
  sessions : list Session;
  dateNow : Z
}.

(** ** The component *)

(** [useState] cells. *)
Record ReactState : Type := {
  status : ConnectionStatus;
  messages : list Message;
  currentInput : JSString;
  currentOutput : JSString
}.

Record ContextPair : Type := { input : nat; output : nat }.

(** [useRef] cells; a reference to an object is its index in the heap.
    [audioSourcesRef] is a [Set] of nodes: insertion-ordered, without
    duplicates. *)
Record Refs : Type := {
  nextStartTimeRef : Q;
  audioContextsRef : option ContextPair;
  audioSourcesRef : list nat;
  sessionRef : option nat;
  streamRef : option nat
}.

Record World : Type := {
  react : ReactState;
  refs : Refs;
  browser : Browser
}.

(** Field updates. *)
Definition upd_react (f : ReactState -> ReactState) (w : World) : World :=
  {| react := f (react w); refs := refs w; browser := browser w |}.
Definition upd_refs (f : Refs -> Refs) (w : World) : World :=
  {| react := react w; refs := f (refs w); browser := browser w |}.
Definition upd_browser (f : Browser -> Browser) (w : World) : World :=
  {| react := react w; refs := refs w; browser := f (browser w) |}.

Definition set_status (v : ConnectionStatus) (r : ReactState) : ReactState :=
  {| status := v; messages := messages r;
     currentInput := currentInput r; currentOutput := currentOutput r |}.
Definition set_messages (v : list Message) (r : ReactState) : ReactState :=
  {| status := status r; messages := v;
     currentInput := currentInput r; currentOutput := currentOutput r |}.
Definition set_currentInput (v : JSString) (r : ReactState) : ReactState :=
  {| status := status r; messages := messages r;
     currentInput := v; currentOutput := currentOutput r |}.
Definition set_currentOutput (v : JSString) (r : ReactState) : ReactState :=
  {| status := status r; messages := messages r;
     currentInput := currentInput r; currentOutput := v |}.

Definition set_nextStartTime (v : Q) (r : Refs) : Refs :=
  {| nextStartTimeRef := v; audioContextsRef := audioContextsRef r;
     audioSourcesRef := audioSourcesRef r; sessionRef := sessionRef r;
     streamRef := streamRef r |}.
Definition set_audioContexts (v : option ContextPair) (r : Refs) : Refs :=
  {| nextStartTimeRef := nextStartTimeRef r; audioContextsRef := v;
     audioSourcesRef := audioSourcesRef r; sessionRef := sessionRef r;
     streamRef := streamRef r |}.
Definition set_audioSources (v : list nat) (r : Refs) : Refs :=
  {| nextStartTimeRef := nextStartTimeRef r; audioContextsRef := audioContextsRef r;
     audioSourcesRef := v; sessionRef := sessionRef r;
     streamRef := streamRef r |}.
Definition set_session (v : option nat) (r : Refs) : Refs :=
  {| nextStartTimeRef := nextStartTimeRef r; audioContextsRef := audioContextsRef r;
     audioSourcesRef := audioSourcesRef r; sessionRef := v;
     streamRef := streamRef r |}.
Definition set_stream (v : option nat) (r : Refs) : Refs :=
  {| nextStartTimeRef := nextStartTimeRef r; audioContextsRef := audioContextsRef r;
     audioSourcesRef := audioSourcesRef r; sessionRef := sessionRef r;
     streamRef := v |}.

Definition set_sourceNodes (v : list SourceNode) (b : Browser) : Browser :=
  {| sourceNodes := v; audioContexts := audioContexts b;
     mediaStreams := mediaStreams b; sessions := sessions b; dateNow := dateNow b |}.
Definition set_contexts (v : list AudioContext) (b : Browser) : Browser :=
  {| sourceNodes := sourceNodes b; audioContexts := v;
     mediaStreams := mediaStreams b; sessions := sessions b; dateNow := dateNow b |}.
Definition set_mediaStreams (v : list MediaStream) (b : Browser) : Browser :=
  {| sourceNodes := sourceNodes b; audioContexts := audioContexts b;
     mediaStreams := v; sessions := sessions b; dateNow := dateNow b |}.
Definition set_sessions (v : list Session) (b : Browser) : Browser :=
  {| sourceNodes := sourceNodes b; audioContexts := audioContexts b;
     mediaStreams := mediaStreams b; sessions := v; dateNow := dateNow b |}.
Definition set_dateNow (v : Z) (b : Browser) : Browser :=
  {| sourceNodes := sourceNodes b; audioContexts := audioContexts b;
     mediaStreams := mediaStreams b; sessions := sessions b; dateNow := v |}.

(** ** The handler monad *)

Inductive Exn : Type := TypeError | InvalidStateError | DecodeError.

Inductive Completion (A : Type) : Type :=
| Normal (a : A)
| Throw (e : Exn).
Arguments Normal {A} a.
Arguments Throw {A} e.

Definition JS (A : Type) : Type := World -> Completion A * World.

Definition ret {A : Type} (a : A) : JS A := fun w => (Normal a, w).

Definition bind {A B : Type} (m : JS A) (k : A -> JS B) : JS B :=
  fun w =>
    match m w with
    | (Normal a, w') => k a w'
    | (Throw e, w') => (Throw e, w')
    end.

Definition throw {A : Type} (e : Exn) : JS A := fun w => (Throw e, w).

(** [try { m } catch (e) { h e }]: what [m] changed before it threw
    stays changed. *)
Definition try_catch {A : Type} (m : JS A) (h : Exn -> JS A) : JS A :=
  fun w =>
    match m w with
    | (Normal a, w') => (Normal a, w')
    | (Throw e, w') => h e w'
    end.

(** A computation that reads no state. *)
Definition lift {A : Type} (c : Completion A) : JS A := fun w => (c, w).

Definition gets {A : Type} (f : World -> A) : JS A := fun w => (Normal (f w), w).
Definition modify (f : World -> World) : JS unit := fun w => (Normal tt, f w).

Declare Scope js_scope.
Delimit Scope js_scope with js.
Bind Scope js_scope with JS.
Notation "'let*' x ':=' m 'in' k" := (bind m (fun x => k))
  (at level 10, x name, m at level 100, k at level 200, only parsing) : js_scope.
Notation "m '>>' k" := (bind m (fun _ => k))
  (at level 90, right associativity) : js_scope.
Local Open Scope js_scope.

Definition when (b : bool) (m : JS unit) : JS unit :=
  if b then m else ret tt.

(** [xs.forEach(f)]. *)
Fixpoint forEach {A : Type} (xs : list A) (f : A -> JS unit) : JS unit :=
  match xs with
  | [] => ret tt
  | x :: xs' => f x >> forEach xs' f
  end.

(** The state a handler leaves behind, whether it returned or threw. *)
Definition exec {A : Type} (m : JS A) (w : World) : World := snd (m w).
Definition result {A : Type} (m : JS A) (w : World) : Completion A := fst (m w).

(** ** Browser primitives *)

Definition lookup_node (id : nat) (w : World) : option SourceNode :=
  sourceNodes (browser w) !! id.

Definition update_node (id : nat) (f : SourceNode -> SourceNode) : World -> World :=
  upd_browser (fun b => set_sourceNodes (alter f id (sourceNodes b)) b).

Definition set_playback (p : Playback) (n : SourceNode) : SourceNode :=
  {| node_buffer := node_buffer n; node_connected := node_connected n;
     node_when := node_when n; node_playback := p; node_onended := node_onended n |}.

(** A reference that points at nothing behaves as [undefined]: using it
    is a [TypeError]. *)
Definition with_node {A : Type} (id : nat) (k : SourceNode -> JS A) : JS A :=
  fun w =>
    match lookup_node id w with
    | Some n => k n w
    | None => (Throw TypeError, w)
    end.

(** [ctx.createBufferSource()] *)
Definition createBufferSource (ctx : nat) : JS nat :=
  fun w =>
    match audioContexts (browser w) !! ctx with
    | Some _ =>
      (Normal (length (sourceNodes (browser w))),
       upd_browser (fun b =>
         set_sourceNodes (sourceNodes b ++
           [{| node_buffer := None; node_connected := false; node_when := None;
               node_playback := Unstarted; node_onended := false |}]) b) w)
    | None => (Throw TypeError, w)
    end.

(** [source.buffer = audioBuffer] *)
Definition source_set_buffer (id : nat) (b : AudioBuffer) : JS unit :=
  with_node id (fun _ =>
    modify (update_node id (fun n =>
      {| node_buffer := Some b; node_connected := node_connected n;
         node_when := node_when n; node_playback := node_playback n;
         node_onended := node_onended n |}))).

(** [source.connect(outputCtx.destination)] *)
Definition source_connect (id : nat) : JS unit :=
  with_node id (fun _ =>
    modify (update_node id (fun n =>
      {| node_buffer := node_buffer n; node_connected := true;
         node_when := node_when n; node_playback := node_playback n;
         node_onended := node_onended n |}))).

(** [source.start(when)]: a node starts once. *)
Definition source_start (id : nat) (t : Q) : JS unit :=
  with_node id (fun n =>
    match node_playback n with
    | Unstarted =>
      modify (update_node id (fun n =>
        {| node_buffer := node_buffer n; node_connected := node_connected n;
           node_when := Some t; node_playback := Scheduled;
           node_onended := node_onended n |}))
    | _ => throw InvalidStateError
    end).

(** [source.onended = () => audioSourcesRef.current.delete(source)] *)
Definition source_set_onended (id : nat) : JS unit :=
  with_node id (fun _ =>
    modify (update_node id (fun n =>
      {| node_buffer := node_buffer n; node_connected := node_connected n;
         node_when := node_when n; node_playback := node_playback n;
         node_onended := true |}))).

(** [ctx.currentTime] *)
Definition ctx_currentTime (id : nat) : JS Q :=
  fun w =>
    match audioContexts (browser w) !! id with
    | Some c => (Normal (currentTime c), w)
    | None => (Throw TypeError, w)
    end.

Definition close_context (c : AudioContext) : AudioContext :=
  {| ctx_sampleRate := ctx_sampleRate c; currentTime := currentTime c; ctx_closed := true |}.

(** [ctx.close()]: the promise it returns is dropped by the caller. *)
Definition ctx_close (id : nat) : JS unit :=
  fun w =>
    match audioContexts (browser w) !! id with
    | Some _ =>
      (Normal tt, upd_browser (fun b => set_contexts (alter close_context id (audioContexts b)) b) w)
    | None => (Throw TypeError, w)
    end.

(** [stream.getTracks().forEach(track => track.stop())] *)
Definition stream_stop_tracks (id : nat) : JS unit :=
  fun w =>
    match mediaStreams (browser w) !! id with
    | Some _ =>
      (Normal tt, upd_browser (fun b =>
         set_mediaStreams (alter (fun _ => {| tracks_stopped := true |}) id (mediaStreams b)) b) w)
    | None => (Throw TypeError, w)
    end.

(** [session.close()] *)
Definition session_close (id : nat) : JS unit :=
  fun w =>
    match sessions (browser w) !! id with
    | Some _ =>
      (Normal tt, upd_browser (fun b =>
         set_sessions (alter (fun _ => {| session_closed := true |}) id (sessions b)) b) w)
    | None => (Throw TypeError, w)
    end.

(** [new AudioContext({ sampleRate })] *)
Definition new_AudioContext (rate : positive) : JS nat :=
  let* id := gets (fun w => length (audioContexts (browser w))) in
  modify (upd_browser (fun b =>
    set_contexts (audioContexts b ++
      [{| ctx_sampleRate := rate; currentTime := 0; ctx_closed := false |}]) b)) >>
  ret id.

(** [prev.slice(-n)] *)
Definition slice_last {A : Type} (n : nat) (l : list A) : list A :=
  drop (length l - n) l.

(** [set.add(x)] and [set.delete(x)] on an insertion-ordered set. *)
Definition set_add (x : nat) (s : list nat) : list nat :=
  if existsb (Nat.eqb x) s then s else s ++ [x].
Definition set_delete (x : nat) (s : list nat) : list nat :=
  List.filter (fun y => negb (Nat.eqb x y)) s.

(** ** The PCM codec ([./utils/audio-utils])

    [App.tsx] imports [createPcmBlob], [encode], [decode] and
    [decodeAudioData] from [./utils/audio-utils]; that file is not part
    of the sources at hand, so the codec below follows the
    specification's description of it (section 4.1).  Samples are exact
    rationals: every 32-bit float is one, and scaling it by [2^15],
    rounding it and dividing by [2^15] are exact in JavaScript's
    doubles. *)

(** Modelled from the spec: "scales to a 16-bit signed integer range"
    names neither the factor nor the rounding, so both are parameters:
    full scale is 32767 or 32768, separately for each sign, and the
    scaled value is rounded toward zero (what storing into an
    [Int16Array] does), to the nearest integer, or down. *)
Inductive Rounding : Type := TowardZero | ToNearest | Down.
Inductive FullScale : Type := Scale32767 | Scale32768.

Record Quantizer : Type := {
  rounding : Rounding;
  positive_scale : FullScale;
  negative_scale : FullScale
}.

Definition scale_factor (k : FullScale) : Z :=
  match k with
  | Scale32767 => 32767
  | Scale32768 => 32768
  end.

(** Modelled from the spec: "clamps each sample to [-1, 1]". *)
Definition clamp (x : Q) : Q := Qmax (-1) (Qmin 1 x).

Definition round_with (r : Rounding) (y : Q) : Z :=
  match r with
  | TowardZero => if Qle_bool 0 y then Qfloor y else Qceiling y
  | ToNearest => Qfloor (y + (1 # 2))
  | Down => Qfloor y
  end.

(** The 16-bit signed range. *)
Definition saturate16 (z : Z) : Z := Z.max (-32768) (Z.min 32767 z).

(** Modelled from the spec: one sample of [createPcmBlob], "clamps each
    sample to [-1, 1], scales to a 16-bit signed integer range". *)
Definition quantize (qz : Quantizer) (x : Q) : Z :=
  let s := clamp x in
  let k := if Qle_bool 0 s then positive_scale qz else negative_scale qz in
  saturate16 (round_with (rounding qz) (s * inject_Z (scale_factor k))).

Definition byte_of_Z (z : Z) : byte :=
  match Byte.of_N (Z.to_N (z mod 256)) with
  | Some b => b
  | None => x00
  end.

(** Modelled from the spec: "serializes little-endian", the two's
    complement of a 16-bit integer, low byte first. *)
Definition int16_bytes (z : Z) : list byte :=
  let u := (z mod 65536)%Z in
  [byte_of_Z u; byte_of_Z (u / 256)].

(** Modelled from the spec: "raw little-endian 16-bit signed
    integers", read back from two bytes. *)
Definition int16_of_bytes (lo hi : byte) : Z :=
  let u := (Z.of_N (Byte.to_N lo) + 256 * Z.of_N (Byte.to_N hi))%Z in
  if (u <? 32768)%Z then u else (u - 65536)%Z.

(** The base64 alphabet, as code units. *)
Definition b64_char (v : N) : N :=
  (if v <? 26 then 65 + v
   else if v <? 52 then 97 + (v - 26)
   else if v <? 62 then 48 + (v - 52)
   else if v =? 62 then 43 else 47)%N.

Definition b64_value (c : N) : option N :=
  (if (65 <=? c) && (c <=? 90) then Some (c - 65)
   else if (97 <=? c) && (c <=? 122) then Some (c - 97 + 26)
   else if (48 <=? c) && (c <=? 57) then Some (c - 48 + 52)
   else if c =? 43 then Some 62
   else if c =? 47 then Some 63
   else None)%N.

Definition pad : N := 61%N.

(** Modelled from the spec: [encode] of [./utils/audio-utils], the
    "base64-style text envelope" of a byte buffer. *)
Fixpoint encode (bytes : list byte) : JSString :=
  match bytes with
  | [] => []
  | [a] =>
    let a := Byte.to_N a in
    [b64_char (a / 4); b64_char (a mod 4 * 16); pad; pad]%N
  | [a; b] =>
    let a := Byte.to_N a in
    let b := Byte.to_N b in
    [b64_char (a / 4); b64_char (a mod 4 * 16 + b / 16);
     b64_char (b mod 16 * 4); pad]%N
  | a :: b :: c :: rest =>
    let a := Byte.to_N a in
    let b := Byte.to_N b in
    let c := Byte.to_N c in
    [b64_char (a / 4); b64_char (a mod 4 * 16 + b / 16);
     b64_char (b mod 16 * 4 + c / 64); b64_char (c mod 64)]%N ++ encode rest
  end.

Definition byte1 (v1 v2 : N) : option byte := Byte.of_N (v1 * 4 + v2 / 16)%N.
Definition byte2 (v2 v3 : N) : option byte := Byte.of_N (v2 mod 16 * 16 + v3 / 4)%N.
Definition byte3 (v3 v4 : N) : option byte := Byte.of_N (v3 mod 4 * 64 + v4)%N.

(** Modelled from the spec: [decode] of [./utils/audio-utils] (the
    spec's [decodeBlob]), the "inverse text-envelope decode to raw
    bytes", which fails on input that is not validly encoded ([None]
    here). *)
Fixpoint decode (s : JSString) : option (list byte) :=
  match s with
  | [] => Some []
  | c1 :: c2 :: c3 :: c4 :: rest =>
    v1 ← b64_value c1;
    v2 ← b64_value c2;
    a ← byte1 v1 v2;
    if (c3 =? pad)%N then
      if (c4 =? pad)%N then
        match rest with [] => Some [a] | _ => None end
      else None
    else
      v3 ← b64_value c3;
      b ← byte2 v2 v3;
      if (c4 =? pad)%N then
        match rest with [] => Some [a; b] | _ => None end
      else
        v4 ← b64_value c4;
        c ← byte3 v3 v4;
        tail ← decode rest;
        Some (a :: b :: c :: tail)
  | _ => None
  end.

(** Modelled from the spec: [bytesToFloatSamples], "reinterprets raw
    little-endian 16-bit signed integers as normalized floats (divide by
    32768)"; a trailing odd byte is ignored. *)
Fixpoint bytesToFloatSamples (bytes : list byte) : list Q :=
  match bytes with
  | lo :: hi :: rest => (int16_of_bytes lo hi # 32768) :: bytesToFloatSamples rest
  | _ => []
  end.

(** The outbound chunk: the text envelope and its type tag. *)
Record WireBlob : Type := {
  wire_data : JSString;
  wire_mimeType : JSString
}.

(** Modelled from the spec: [createPcmBlob] of [./utils/audio-utils]
    (the spec's [encodeFrame]): quantize each sample, serialize
    little-endian, wrap as base64 text tagged as 16 kHz raw PCM. *)
Definition createPcmBlob (qz : Quantizer) (samples : list Q) : WireBlob :=
  {| wire_data := encode (flat_map (fun x => int16_bytes (quantize qz x)) samples);
     wire_mimeType := js "audio/pcm;rate=16000" |}.

(** ** Data for the examples, and the specification's reading of the flush *)

(** The component as it is mounted (lines 20-29). *)
Definition initial_world : World :=
  {| react := {| status := IDLE; messages := []; currentInput := []; currentOutput := [] |};
     refs := {| nextStartTimeRef := 0; audioContextsRef := None; audioSourcesRef := [];
                sessionRef := None; streamRef := None |};
     browser := {| sourceNodes := []; audioContexts := []; mediaStreams := [];
                   sessions := []; dateNow := 0 |} |}.

(** A stand-in decoder for the examples: 50 ms of audio (1200 frames at
    24 kHz) per character of payload. *)
Definition fixed_rate_decoder (payload : JSString) : Completion AudioBuffer :=
  Normal {| buffer_length := N.of_nat (length payload) * 1200; buffer_sampleRate := 24000 |}.

Definition audio_message (payload : string) (interrupt : bool) : LiveServerMessage :=
  {| serverContent := Some
       {| inputTranscription := None; outputTranscription := None;
          turnComplete := false; interrupted := interrupt;
          modelTurn := Some
            {| parts := Some [{| inlineData := Some {| data := Some (js payload) |} |}] |} |} |}.

Definition transcript_message (heard said : option string) (complete : bool)
    : LiveServerMessage :=
  {| serverContent := Some
       {| inputTranscription :=
            option_map (fun t => {| transcription_text := Some (js t) |}) heard;
          outputTranscription :=
            option_map (fun t => {| transcription_text := Some (js t) |}) said;
          turnComplete := complete; interrupted := false; modelTurn := None |} |}.

(** Twelve turns of text, for the transcript log. *)
Definition twelve_turns : list JSString :=
  List.map js ["one"; "two"; "three"; "four"; "five"; "six"; "seven"; "eight";
               "nine"; "ten"; "eleven"; "twelve"]%string.

(** The entries the specification says an end-of-turn flush adds: one
    for each fragment that is not empty. *)
Definition claimed_flushed_entries (now : Z) (r : ReactState) : list Message :=
  (if truthy (currentInput r)
   then [{| role := user; text := currentInput r; timestamp := now |}] else []) ++
  (if truthy (currentOutput r)
   then [{| role := agent; text := currentOutput r; timestamp := now |}] else []).

(** ** [src/App.tsx] *)

Section App.

(** [decodeAudioData(decode(audioData), outputCtx, 24000, 1)] of
    [./utils/audio-utils], awaited by [handleMessage]: the buffer it
    resolves to, or the error it rejects with. *)
Variable decodeAudioData : JSString -> Completion AudioBuffer.

(** Whether [stop()] on a node that already played to its end throws
    (older WebKit) or does nothing (the Web Audio standard). *)
Variable stop_after_end_throws : bool.

(** [source.stop()] *)
Definition source_stop (id : nat) : JS unit :=
  with_node id (fun n =>
    match node_playback n with
    | Unstarted => throw InvalidStateError
    | Scheduled => modify (update_node id (set_playback Stopped))
    | Finished => if stop_after_end_throws then throw InvalidStateError else ret tt
    | Stopped => ret tt
    end).

Definition setStatus (v : ConnectionStatus) : JS unit :=
  modify (upd_react (set_status v)).

(** [setMessages(prev => f prev)] and its siblings: the updater runs on
    the latest value.  The updaters of [handleMessage] call [addMessage],
    so an updater is itself a handler. *)
Definition setMessages (updater : list Message -> JS (list Message)) : JS unit :=
  let* prev := gets (fun w => messages (react w)) in
  let* next := updater prev in
  modify (upd_react (set_messages next)).

Definition setCurrentInput (updater : JSString -> JS JSString) : JS unit :=
  let* prev := gets (fun w => currentInput (react w)) in
  let* next := updater prev in
  modify (upd_react (set_currentInput next)).

Definition setCurrentOutput (updater : JSString -> JS JSString) : JS unit :=
  let* prev := gets (fun w => currentOutput (react w)) in
  let* next := updater prev in
  modify (upd_react (set_currentOutput next)).

(** Lines 31-34. *)
Definition addMessage (r : Role) (t : JSString) : JS unit :=
  if negb (truthy (trim t)) then ret tt
  else
    setMessages (fun prev =>
      let* now := gets (fun w => dateNow (browser w)) in
      ret (slice_last 10 prev ++ [{| role := r; text := t; timestamp := now |}])).

(** Lines 36-42. *)
Definition stopAllAudio : JS unit :=
  (let* sources := gets (fun w => audioSourcesRef (refs w)) in
   forEach sources (fun source =>
     try_catch (source_stop source) (fun _ => ret tt))) >>
  modify (upd_refs (set_audioSources [])) >>
  modify (upd_refs (set_nextStartTime 0)).

(** [message.serverContent?.f] *)
Definition field {A : Type} (f : ServerContent -> option A)
    (message : LiveServerMessage) : option A :=
  match serverContent message with
  | Some sc => f sc
  | None => None
  end.

Definition flag (f : ServerContent -> bool) (message : LiveServerMessage) : bool :=
  match serverContent message with
  | Some sc => f sc
  | None => false
  end.

(** Line 71: [message.serverContent?.modelTurn?.parts[0]?.inlineData?.data].
    Only [parts] is indexed without a guard. *)
Definition audioDataOf (message : LiveServerMessage) : Completion (option JSString) :=
  match field modelTurn message with
  | None => Normal None
  | Some turn =>
    match parts turn with
    | None => Throw TypeError
    | Some [] => Normal None
    | Some (part :: _) =>
      match inlineData part with
      | None => Normal None
      | Some blob => Normal (data blob)
      end
    end
  end.

(** Lines 46-51: transcription fragments accumulate. *)
Definition handleMessage_transcriptions (message : LiveServerMessage) : JS unit :=
  (match field inputTranscription message with
   | Some t => setCurrentInput (fun prev => ret (concat_text prev (transcription_text t)))
   | None => ret tt
   end) >>
  (match field outputTranscription message with
   | Some t => setCurrentOutput (fun prev => ret (concat_text prev (transcription_text t)))
   | None => ret tt
   end).

(** Lines 53-63: the flush at the end of a turn. *)
Definition handleMessage_turnComplete (message : LiveServerMessage) : JS unit :=
  when (flag turnComplete message)
    (setCurrentInput (fun finalInput =>
       when (truthy finalInput) (addMessage user finalInput) >> ret []) >>
     setCurrentOutput (fun finalOutput =>
       when (truthy finalOutput) (addMessage agent finalOutput) >> ret [])).

(** Lines 66-68. *)
Definition handleMessage_interrupted (message : LiveServerMessage) : JS unit :=
  when (flag interrupted message) stopAllAudio.

(** Lines 76-85: one decoded buffer is put on the output timeline. *)
Definition handleMessage_enqueue (outputCtx : nat) (audioBuffer : AudioBuffer) : JS unit :=
  let* source := createBufferSource outputCtx in
  source_set_buffer source audioBuffer >>
  source_connect source >>
  let* cursor := gets (fun w => nextStartTimeRef (refs w)) in
  let* now := ctx_currentTime outputCtx in
  let startTime := Qmax cursor now in
  source_start source startTime >>
  modify (upd_refs (set_nextStartTime (startTime + duration audioBuffer))) >>
  modify (upd_refs (fun r => set_audioSources (set_add source (audioSourcesRef r)) r)) >>
  source_set_onended source.

(** Lines 71-74: what the handler reaches its [await] with.  The
    payload is looked up, the output context is taken from the ref, and
    the decoder is called; a failure of the decoder is the handler's. *)
Definition handleMessage_decode (message : LiveServerMessage)
    : JS (option (nat * AudioBuffer)) :=
  let* audioData := lift (audioDataOf message) in
  let* contexts := gets (fun w => audioContextsRef (refs w)) in
  match audioData, contexts with
  | Some (c :: s), Some ctxs =>
    let outputCtx := output ctxs in
    let* audioBuffer := lift (decodeAudioData (c :: s)) in
    ret (Some (outputCtx, audioBuffer))
  | _, _ => ret None
  end.

(** Lines 71-86, the handler resuming as soon as it has suspended. *)
Definition handleMessage_audio (message : LiveServerMessage) : JS unit :=
  let* pending := handleMessage_decode message in
  match pending with
  | Some (outputCtx, audioBuffer) => handleMessage_enqueue outputCtx audioBuffer
  | None => ret tt
  end.

(** Lines 44-87, run in one go. *)
Definition handleMessage (message : LiveServerMessage) : JS unit :=
  handleMessage_transcriptions message >>
  handleMessage_turnComplete message >>
  handleMessage_interrupted message >>
  handleMessage_audio message.

(** Lines 44-74: the handler up to its [await], for the schedules in
    which another callback runs before it resumes (lines 76-85 are then
    [handleMessage_enqueue], with the context and the buffer the handler
    suspended with). *)
Definition handleMessage_suspend (message : LiveServerMessage)
    : JS (option (nat * AudioBuffer)) :=
  handleMessage_transcriptions message >>
  handleMessage_turnComplete message >>
  handleMessage_interrupted message >>
  handleMessage_decode message.

(** Lines 152-168. *)
Definition stopSession : JS unit :=
  (let* session := gets (fun w => sessionRef (refs w)) in
   match session with
   | Some s => session_close s >> modify (upd_refs (set_session None))
   | None => ret tt
   end) >>
  (let* stream := gets (fun w => streamRef (refs w)) in
   match stream with
   | Some s => stream_stop_tracks s >> modify (upd_refs (set_stream None))
   | None => ret tt
   end) >>
  (let* contexts := gets (fun w => audioContextsRef (refs w)) in
   match contexts with
   | Some ctxs =>
     ctx_close (input ctxs) >> ctx_close (output ctxs) >>
     modify (upd_refs (set_audioContexts None))
   | None => ret tt
   end) >>
  stopAllAudio >>
  setStatus IDLE.

(** [startSession] (lines 89-150) suspends twice, at
    [await getUserMedia] and at [await sessionPromise]; it is given here
    as the three stretches that run without interruption.  A failure in
    any of them lands in the one [catch], which sets [ERROR]. *)

(** Lines 91-95, up to the first [await]. *)
Definition startSession_begin : JS unit :=
  setStatus CONNECTING.

(** Lines 95-102: resumed with the microphone stream, or with the
    rejection of [getUserMedia]. *)
Definition startSession_userMedia (granted : bool) : JS unit :=
  if granted then
    let* stream := gets (fun w => length (mediaStreams (browser w))) in
    modify (upd_browser (fun b =>
      set_mediaStreams (mediaStreams b ++ [{| tracks_stopped := false |}]) b)) >>
    modify (upd_refs (set_stream (Some stream))) >>
    let* inputCtx := new_AudioContext 16000 in
    let* outputCtx := new_AudioContext 24000 in
    modify (upd_refs (set_audioContexts (Some {| input := inputCtx; output := outputCtx |})))
  else
    setStatus ERROR.

(** Lines 144-149: resumed with the session, or with the rejection of
    [ai.live.connect]. *)
Definition startSession_connected (resolved : bool) : JS unit :=
  if resolved then
    let* session := gets (fun w => length (sessions (browser w))) in
    modify (upd_browser (fun b =>
      set_sessions (sessions b ++ [{| session_closed := false |}]) b)) >>
    modify (upd_refs (set_session (Some session)))
  else
    setStatus ERROR.

(** The callbacks given to [ai.live.connect] (lines 113-141).  [onopen]
    also wires the microphone to the session; that graph is outside the
    state kept here. *)
Definition onopen : JS unit := setStatus CONNECTED.
Definition onerror : JS unit := setStatus ERROR.
Definition onclose : JS unit := setStatus IDLE >> stopSession.

(** ** The event loop *)

(** What can happen to the component: the two buttons, the resumption
    of [startSession], the service's callbacks, and the browser's own
    moves (a node plays to its end, its [ended] event is dispatched,
    clocks advance; [ended] goes only to a node that played to its end
    or was stopped).  A message is handled in one go
    ([MessageReceived]), or in two stretches with other events in
    between ([MessageSuspended], then [DecodeResumed] with what the
    handler suspended with). *)
Inductive Event : Type :=
| StartClicked
| UserMediaSettled (granted : bool)
| ConnectSettled (resolved : bool)
| Opened
| MessageReceived (message : LiveServerMessage)
| MessageSuspended (message : LiveServerMessage)
| DecodeResumed (outputCtx : nat) (audioBuffer : AudioBuffer)
| Errored
| Closed
| StopClicked
| PlaybackFinished (node : nat)
| EndedDispatched (node : nat)
| AudioClock (ctx : nat) (t : Q)
| WallClock (t : Z).

Definition playback_finished (n : SourceNode) : SourceNode :=
  match node_playback n with
  | Scheduled => set_playback Finished n
  | _ => n
  end.

Definition set_currentTime (t : Q) (c : AudioContext) : AudioContext :=
  {| ctx_sampleRate := ctx_sampleRate c; currentTime := t; ctx_closed := ctx_closed c |}.

Definition handler (ev : Event) : JS unit :=
  match ev with
  | StartClicked => startSession_begin
  | UserMediaSettled granted => startSession_userMedia granted
  | ConnectSettled resolved => startSession_connected resolved
  | Opened => onopen
  | MessageReceived message => handleMessage message
  | MessageSuspended message => handleMessage_suspend message >> ret tt
  | DecodeResumed outputCtx audioBuffer => handleMessage_enqueue outputCtx audioBuffer
  | Errored => onerror
  | Closed => onclose
  | StopClicked => stopSession
  | PlaybackFinished node => modify (update_node node playback_finished)
  | EndedDispatched node =>
    with_node node (fun n =>
      match node_playback n with
      | Finished | Stopped =>
        when (node_onended n)
          (modify (upd_refs (fun r =>
             set_audioSources (set_delete node (audioSourcesRef r)) r)))
      | _ => ret tt
      end)
  | AudioClock ctx t =>
    modify (upd_browser (fun b => set_contexts (alter (set_currentTime t) ctx (audioContexts b)) b))
  | WallClock t => modify (upd_browser (set_dateNow t))
  end.

Definition step (ev : Event) (w : World) : World := exec (handler ev) w.

Definition run (evs : list Event) (w : World) : World :=
  fold_left (fun w ev => step ev w) evs w.

(** ** Closed forms and invariants *)

(** What [stopAllAudio] does to the heap, as a function: each listed
    node that is still scheduled is cut; every other node is left as it
    is (for a node that cannot be stopped, [stop] throws or does
    nothing, and the [catch] drops the error). *)
Definition stop_node (n : SourceNode) : SourceNode :=
  match node_playback n with
  | Scheduled => set_playback Stopped n
  | _ => n
  end.

Definition stop_nodes (ids : list nat) (nodes : list SourceNode) : list SourceNode :=
  fold_left (fun ns id => alter stop_node id ns) ids nodes.

Definition playing (n : SourceNode) : bool :=
  match node_playback n with
  | Scheduled => true
  | _ => false
  end.

(** The transcript part of [handleMessage] on the React cells. *)
Definition accumulate (message : LiveServerMessage) (r : ReactState) : ReactState :=
  {| status := status r; messages := messages r;
     currentInput :=
       match field inputTranscription message with
       | Some t => concat_text (currentInput r) (transcription_text t)
       | None => currentInput r
       end;
     currentOutput :=
       match field outputTranscription message with
       | Some t => concat_text (currentOutput r) (transcription_text t)
       | None => currentOutput r
       end |}.

Definition entry (r : Role) (t : JSString) (now : Z) : Message :=
  {| role := r; text := t; timestamp := now |}.

Definition flush (r : Role) (now : Z) (fragment : JSString) (log : list Message) : list Message :=
  if truthy (trim fragment) then slice_last 10 log ++ [entry r fragment now] else log.

Definition flush_turn (now : Z) (r : ReactState) : ReactState :=
  {| status := status r;
     messages := flush agent now (currentOutput r) (flush user now (currentInput r) (messages r));
     currentInput := [];
     currentOutput := [] |}.

(** The node [handleMessage_enqueue] leaves in the heap, and the state
    it leaves when the output context reads [now]. *)
Definition scheduled_node (b : AudioBuffer) (t : Q) : SourceNode :=
  {| node_buffer := Some b; node_connected := true; node_when := Some t;
     node_playback := Scheduled; node_onended := true |}.

Definition enqueued (now : Q) (b : AudioBuffer) (w : World) : World :=
  let source := length (sourceNodes (browser w)) in
  let startTime := Qmax (nextStartTimeRef (refs w)) now in
  upd_refs (fun r => set_audioSources (set_add source (audioSourcesRef r)) r)
    (upd_refs (set_nextStartTime (startTime + duration b))
       (upd_browser (fun br =>
          set_sourceNodes (sourceNodes br ++ [scheduled_node b startTime]) br) w)).

(** The state [stopAllAudio] leaves. *)
Definition all_stopped (w : World) : World :=
  upd_refs (set_nextStartTime 0)
    (upd_refs (set_audioSources [])
       (upd_browser (fun b =>
          set_sourceNodes (stop_nodes (audioSourcesRef (refs w)) (sourceNodes b)) b) w)).

(** A reference held by the component points into the heap. *)
Definition valid_ref {A : Type} (heap : list A) (r : option nat) : bool :=
  match r with
  | Some i => i <? length heap
  | None => true
  end.

Definition refs_valid (w : World) : bool :=
  valid_ref (sessions (browser w)) (sessionRef (refs w)) &&
  valid_ref (mediaStreams (browser w)) (streamRef (refs w)) &&
  match audioContextsRef (refs w) with
  | Some ctxs =>
    (input ctxs <? length (audioContexts (browser w))) &&
    (output ctxs <? length (audioContexts (browser w)))
  | None => true
  end.

(** The state [stopSession] leaves when it runs to its end. *)
Definition alter_at {A : Type} (f : A -> A) (r : option nat) (heap : list A) : list A :=
  match r with
  | Some i => alter f i heap
  | None => heap
  end.

Definition released (w : World) : World :=
  upd_browser (fun b =>
    set_contexts
      (match audioContextsRef (refs w) with
       | Some ctxs =>
         alter close_context (output ctxs)
           (alter close_context (input ctxs) (audioContexts b))
       | None => audioContexts b
       end)
      (set_mediaStreams
         (alter_at (fun _ => {| tracks_stopped := true |}) (streamRef (refs w)) (mediaStreams b))
         (set_sessions
            (alter_at (fun _ => {| session_closed := true |}) (sessionRef (refs w)) (sessions b))
            b)))
    (upd_refs (fun r =>
       set_audioContexts None (set_stream None (set_session None r))) w).

Definition session_stopped (w : World) : World :=
  upd_react (set_status IDLE) (all_stopped (released w)).

(** The events whose handler runs [stopAllAudio]: the stop button, the
    service's close notification, and a message flagged as interrupted. *)
Definition stops (ev : Event) : bool :=
  match ev with
  | StopClicked | Closed => true
  | MessageReceived m | MessageSuspended m => flag interrupted m
  | _ => false
  end.

(** How one step that does not stop moves the output timeline: the
    cursor does not go back, nodes already in the heap keep their buffer
    and start time, and at most one node is added; if that node was
    started, it starts at or after the old cursor and the new cursor is
    at or after its end. *)
Definition timeline_extends (w w' : World) : Prop :=
  (nextStartTimeRef (refs w) <= nextStartTimeRef (refs w'))%Q /\
  (length (sourceNodes (browser w')) <= S (length (sourceNodes (browser w))))%nat /\
  (forall i n, sourceNodes (browser w) !! i = Some n ->
     exists n', sourceNodes (browser w') !! i = Some n' /\
       node_when n' = node_when n /\ node_buffer n' = node_buffer n) /\
  (forall n s, sourceNodes (browser w') !! length (sourceNodes (browser w)) = Some n ->
     node_when n = Some s ->
     exists b, node_buffer n = Some b /\
       (nextStartTimeRef (refs w) <= s)%Q /\
       (s + duration b <= nextStartTimeRef (refs w'))%Q).

(** The nodes created from heap index [base] on do not overlap, and
    none of them ends after the cursor. *)
Definition ordered_from (base : nat) (w : World) : Prop :=
  (forall i n s b, (base <= i)%nat ->
     sourceNodes (browser w) !! i = Some n ->
     node_when n = Some s -> node_buffer n = Some b ->
     (s + duration b <= nextStartTimeRef (refs w))%Q) /\
  (forall i j ni nj si sj bi, (base <= i)%nat -> (i < j)%nat ->
     sourceNodes (browser w) !! i = Some ni ->
     sourceNodes (browser w) !! j = Some nj ->
     node_when ni = Some si -> node_buffer ni = Some bi ->
     node_when nj = Some sj ->
     (si + duration bi <= sj)%Q).

(** A fragment shows something: it has a code unit that [trim] keeps. *)
Definition has_visible (s : JSString) : bool :=
  existsb (fun c => negb (is_whitespace c)) s.

(** The entries one end-of-turn flush adds to the log, given the React
    cells at the time of the flush. *)
Definition flushed_entries (now : Z) (r : ReactState) : list Message :=
  (if has_visible (currentInput r) then [entry user (currentInput r) now] else []) ++
  (if has_visible (currentOutput r) then [entry agent (currentOutput r) now] else []).

(** The status each event leaves, given the status before it. *)
Definition status_after (ev : Event) (before : ConnectionStatus) : ConnectionStatus :=
  match ev with
  | StartClicked => CONNECTING
  | UserMediaSettled false | ConnectSettled false | Errored => ERROR
  | Opened => CONNECTED
  | Closed | StopClicked => IDLE
  | _ => before
  end.

(** The changes of status the specification lists for the session
    (Idle, Connecting, Connected, Error), and no other. *)
Definition claimed_transition (a b : ConnectionStatus) : bool :=
  match a, b with
  | IDLE, CONNECTING
  | CONNECTING, CONNECTED
  | CONNECTED, IDLE
  | CONNECTING, ERROR
  | CONNECTED, ERROR
  | ERROR, CONNECTING => true
  | _, _ => false
  end.

(** The buttons the component renders (lines 191-228): "End Call" while
    connected, "Start Consultation" while idle, "Retry Connection" after
    an error.  The service's callbacks are not gated by the status. *)
Definition offered (ev : Event) (st : ConnectionStatus) : bool :=
  match ev, st with
  | StartClicked, (IDLE | ERROR) => true
  | StartClicked, _ => false
  | StopClicked, CONNECTED => true
  | StopClicked, _ => false
  | _, _ => true
  end.

(** Every node that is playing, or waiting to, is in the set of active
    sources. *)
Definition tracked (w : World) : Prop :=
  forall id n, lookup_node id w = Some n -> playing n = true ->
    In id (audioSourcesRef (refs w)).

(** ** What the component renders (lines 170-270, and [VoiceWave]) *)

(** Lines 170-178.  [status] is one of the four members of the enum, so
    the [default] branch of the [switch] is never taken. *)
Definition getStatusText (st : ConnectionStatus) : string :=
  match st with
  | IDLE => "Tap to Start"
  | CONNECTING => "Connecting..."
  | CONNECTED => "Aria is Listening"
  | ERROR => "Connection Failed"
  end.

(** [a === b] on the enum. *)
Definition status_is (a b : ConnectionStatus) : bool :=
  match a, b with
  | IDLE, IDLE | CONNECTING, CONNECTING | CONNECTED, CONNECTED | ERROR, ERROR => true
  | _, _ => false
  end.

(** [VoiceWave]: three pulse rings and a highlighted disc while active,
    and the caption below. *)
Record WaveView : Type := {
  wave_rings : nat;
  wave_highlighted : bool;
  wave_caption : string
}.

Definition VoiceWave (isActive : bool) (caption : string) : WaveView :=
  {| wave_rings := if isActive then 3 else 0;
     wave_highlighted := isActive;
     wave_caption := caption |}.

(** A button: its label and what its [onClick] runs. *)
Record Button : Type := {
  button_label : string;
  button_onClick : Event
}.

(** The floating bar of the running transcription (lines 232-243). *)
Record Bar : Type := {
  bar_label : string;
  bar_text : JSString
}.

(** One entry of the transcript list (lines 253-266): user entries are
    aligned to the end, the agent's to the start. *)
Inductive Alignment : Type := items_end | items_start.

Record Bubble : Type := {
  bubble_align : Alignment;
  bubble_text : JSString;
  bubble_time : Z
}.

Record View : Type := {
  view_header : list Button;
  view_wave : WaveView;
  view_main : list Button;
  view_bar : option Bar;
  view_placeholder : bool;
  view_bubbles : list Bubble
}.

(** [cond && <element/>] *)
Definition shown {A : Type} (cond : bool) (element : A) : list A :=
  if cond then [element] else [].

(** [a || b] on strings. *)
Definition or_else (a b : JSString) : JSString :=
  if truthy a then a else b.

(** Lines 180-270, the parts that depend on the state. *)
Definition render (r : ReactState) : View :=
  {| view_header :=
       shown (status_is (status r) CONNECTED)
         {| button_label := "End Call"; button_onClick := StopClicked |};
     view_wave := VoiceWave (status_is (status r) CONNECTED) (getStatusText (status r));
     view_main :=
       shown (status_is (status r) IDLE)
         {| button_label := "Start Consultation"; button_onClick := StartClicked |} ++
       shown (status_is (status r) ERROR)
         {| button_label := "Retry Connection"; button_onClick := StartClicked |};
     view_bar :=
       if truthy (or_else (currentInput r) (currentOutput r)) then
         Some {| bar_label := if truthy (currentInput r)
                              then "Recognizing..." else "Aria is speaking...";
                 bar_text := or_else (currentInput r) (currentOutput r) |}
       else None;
     view_placeholder := Nat.eqb (length (messages r)) 0;
     view_bubbles :=
       List.map (fun msg =>
         {| bubble_align := match role msg with user => items_end | agent => items_start end;
            bubble_text := text msg;
            bubble_time := timestamp msg |}) (messages r) |}.

(** Messages that carry one transcription fragment of the user and
    nothing else, and the message that only ends the turn. *)
Definition heard (t : JSString) : LiveServerMessage :=
  {| serverContent := Some
       {| inputTranscription := Some {| transcription_text := Some t |};
          outputTranscription := None;
          turnComplete := false; interrupted := false; modelTurn := None |} |}.

Definition turn_done : LiveServerMessage :=
  {| serverContent := Some
       {| inputTranscription := None; outputTranscription := None;
          turnComplete := true; interrupted := false; modelTurn := None |} |}.

(** The state in which the audio branch of [handleMessage] starts: the
    first three parts have run. *)
Definition before_audio_state (message : LiveServerMessage) (w : World) : World :=
  exec (handleMessage_interrupted message)
    (exec (handleMessage_turnComplete message)
       (exec (handleMessage_transcriptions message) w)).

(** ** Further invariants of the event loop *)

(** The events that run [handleMessage]. *)
Definition is_message (ev : Event) : bool :=
  match ev with
  | MessageReceived _ | MessageSuspended _ => true
  | _ => false
  end.

(** The cursor, and every time a node was started with, is at or after
    0: [source.start] is never given a negative time. *)
Definition starts_nonneg (w : World) : Prop :=
  (0 <= nextStartTimeRef (refs w))%Q /\
  forall id n t, lookup_node id w = Some n -> node_when n = Some t -> (0 <= t)%Q.

(** The log as the footer shows it: at most eleven entries, none of
    them blank. *)
Definition log_bounded (log : list Message) : Prop :=
  (length log <= 11)%nat /\ Forall (fun e => has_visible (text e) = true) log.

(** The component is stopped: it holds no session, stream or context,
    no active source, and the cursor is at 0. *)
Definition at_rest (w : World) : Prop :=
  audioContextsRef (refs w) = None /\
  audioSourcesRef (refs w) = [] /\
  nextStartTimeRef (refs w) = 0%Q.

(** From [w] to [w'] the heap of nodes only grows, and the set of
    active sources gains at most the node created next. *)
Definition heap_grows (w w' : World) : Prop :=
  (length (sourceNodes (browser w)) <= length (sourceNodes (browser w')))%nat /\
  forall x, In x (audioSourcesRef (refs w')) ->
    In x (audioSourcesRef (refs w)) \/ x = length (sourceNodes (browser w)).

(** What a session holds, and the objects of the browser behind it
    (the audio contexts apart, whose clocks move). *)
Definition resources (w : World)
    : option nat * option nat * option ContextPair * list Session * list MediaStream :=
  (sessionRef (refs w), streamRef (refs w), audioContextsRef (refs w),
   sessions (browser w), mediaStreams (browser w)).

(** The events that can change them: the two resumptions of
    [startSession] that bring a new object, and the two that run
    [stopSession]. *)
Definition touches_resources (ev : Event) : bool :=
  match ev with
  | UserMediaSettled true | ConnectSettled true | Closed | StopClicked => true
  | _ => false
  end.

(** No reference of the component points at context [i]. *)
Definition context_unreferenced (i : nat) (w : World) : Prop :=
  forall p, audioContextsRef (refs w) = Some p -> input p <> i /\ output p <> i.

(** ** The microphone path (lines 117-131)

    [onaudioprocess] turns each captured frame into a blob and hands it
    to [sessionPromise.then]; the callback sends it once the promise is
    fulfilled.  A promise runs the callbacks registered while it was
    pending in the order of registration when it is fulfilled, runs a
    callback registered later right away, and never runs them when it
    is rejected.  [createPcmBlob] is a parameter here. *)
Inductive SessionPromise (B : Type) : Type :=
| Pending (reactions : list B)
| Fulfilled
| Rejected.
Arguments Pending {B} reactions.
Arguments Fulfilled {B}.
Arguments Rejected {B}.

Record Uplink (B : Type) : Type := {
  sessionPromise : SessionPromise B;
  sendRealtimeInput : list B
}.
Arguments sessionPromise {B} u.
Arguments sendRealtimeInput {B} u.

Inductive CaptureEvent (F : Type) : Type :=
| AudioProcess (inputData : F)
| PromiseSettled (fulfilled : bool).
Arguments AudioProcess {F} inputData.
Arguments PromiseSettled {F} fulfilled.

Definition onaudioprocess {F B : Type} (pcmBlob : F -> B) (inputData : F)
    (u : Uplink B) : Uplink B :=
  let blob := pcmBlob inputData in
  match sessionPromise u with
  | Pending reactions =>
    {| sessionPromise := Pending (reactions ++ [blob]);
       sendRealtimeInput := sendRealtimeInput u |}
  | Fulfilled =>
    {| sessionPromise := Fulfilled;
       sendRealtimeInput := sendRealtimeInput u ++ [blob] |}
  | Rejected => u
  end.

Definition settle {B : Type} (fulfilled : bool) (u : Uplink B) : Uplink B :=
  match sessionPromise u with
  | Pending reactions =>
    if fulfilled
    then {| sessionPromise := Fulfilled;
            sendRealtimeInput := sendRealtimeInput u ++ reactions |}
    else {| sessionPromise := Rejected; sendRealtimeInput := sendRealtimeInput u |}
  | _ => u
  end.

Definition capture_step {F B : Type} (pcmBlob : F -> B) (u : Uplink B)
    (ev : CaptureEvent F) : Uplink B :=
  match ev with
  | AudioProcess inputData => onaudioprocess pcmBlob inputData u
  | PromiseSettled fulfilled => settle fulfilled u
  end.

Definition capture {F B : Type} (pcmBlob : F -> B) (evs : list (CaptureEvent F))
    : Uplink B :=
  fold_left (capture_step pcmBlob) evs
    {| sessionPromise := Pending []; sendRealtimeInput := [] |}.

(** The frames captured, in the order of capture. *)
Definition captured {F : Type} (evs : list (CaptureEvent F)) : list F :=
  flat_map (fun ev => match ev with AudioProcess f => [f] | PromiseSettled _ => [] end) evs.

(** * Properties *)

Ltac js_unfold :=
  unfold exec, result, bind, ret, throw, lift, try_catch, gets, modify, when, with_node in *.

Lemma world_eta (w : World) :
  {| react := react w; refs := refs w; browser := browser w |} = w.
Proof. by destruct w. Qed.

Lemma browser_eta (b : Browser) :
  {| sourceNodes := sourceNodes b; audioContexts := audioContexts b;
     mediaStreams := mediaStreams b; sessions := sessions b; dateNow := dateNow b |} = b.
Proof. by destruct b. Qed.

Lemma alter_agree {A : Type} (f g : A -> A) (i : nat) (l : list A) (x : A) :
  l !! i = Some x -> f x = g x -> alter f i l = alter g i l.
Proof.
  revert i; induction l as [|y l IH]; intros [|i] Hl Hf; simpl in *; try done.
  - injection Hl as ->. unfold alter; simpl. by rewrite Hf.
  - unfold alter in *; simpl. f_equal. by apply IH.
Qed.

Lemma alter_fixed {A : Type} (f : A -> A) (i : nat) (l : list A) (x : A) :
  l !! i = Some x -> f x = x -> alter f i l = l.
Proof.
  intros Hl Hf. rewrite (alter_agree f id i l x Hl Hf).
  clear. revert i; induction l as [|y l IH]; intros [|i]; try done.
  unfold alter in *; simpl. f_equal. apply IH.
Qed.

Lemma alter_missing {A : Type} (f : A -> A) (i : nat) (l : list A) :
  l !! i = None -> alter f i l = l.
Proof.
  revert i; induction l as [|y l IH]; intros [|i] Hl; simpl in *; try done.
  unfold alter in *; simpl. f_equal. by apply IH.
Qed.

(** One guarded [stop]: never an exception, and the heap changes as
    [stop_node] says. *)
Lemma guarded_stop_spec (id : nat) (w : World) :
  try_catch (source_stop id) (fun _ => ret tt) w =
  (Normal tt, upd_browser (fun b => set_sourceNodes (alter stop_node id (sourceNodes b)) b) w).
Proof.
  unfold source_stop. js_unfold. unfold update_node, lookup_node.
  destruct w as [r f [ns cs ms ss d]]; unfold upd_browser, set_sourceNodes; simpl.
  destruct (ns !! id) as [n|] eqn:Hn; simpl.
  - assert (Hfix : node_playback n <> Scheduled -> alter stop_node id ns = ns).
    { intros Hp. apply (alter_fixed _ _ _ n Hn). unfold stop_node.
      by destruct (node_playback n). }
    destruct (node_playback n) eqn:Hp; simpl.
    + by rewrite Hfix.
    + do 3 f_equal. apply (alter_agree _ _ _ _ n Hn). unfold stop_node. by rewrite Hp.
    + destruct stop_after_end_throws; simpl; by rewrite Hfix.
    + by rewrite Hfix.
  - by rewrite alter_missing.
Qed.

Lemma stop_each_spec (ids : list nat) (w : World) :
  forEach ids (fun source => try_catch (source_stop source) (fun _ => ret tt)) w =
  (Normal tt, upd_browser (fun b => set_sourceNodes (stop_nodes ids (sourceNodes b)) b) w).
Proof.
  revert w; induction ids as [|id ids IH]; intros w; simpl.
  - unfold ret, upd_browser, set_sourceNodes, stop_nodes; simpl.
    by rewrite browser_eta, world_eta.
  - unfold bind at 1. rewrite guarded_stop_spec, IH.
    by destruct w as [r f [ns cs ms ss d]].
Qed.

(** [stopAllAudio] in closed form. *)
Lemma stopAllAudio_spec (w : World) :
  stopAllAudio w = (Normal tt, all_stopped w).
Proof.
  unfold stopAllAudio. unfold bind at 1. unfold bind at 1, gets at 1.
  rewrite stop_each_spec. reflexivity.
Qed.

(** Stopping never revives a node and never touches its buffer or its
    start time; a listed node is not playing afterwards. *)
Lemma stop_node_spec (n : SourceNode) :
  playing (stop_node n) = false /\
  node_when (stop_node n) = node_when n /\
  node_buffer (stop_node n) = node_buffer n.
Proof. unfold stop_node, playing. by destruct n as [b c t [] o]. Qed.

Lemma stop_nodes_length (ids : list nat) (ns : list SourceNode) :
  length (stop_nodes ids ns) = length ns.
Proof.
  revert ns; induction ids as [|id ids IH]; intros ns; [done|].
  unfold stop_nodes in *; simpl. by rewrite IH, length_alter.
Qed.

Lemma stop_nodes_lookup (ids : list nat) (ns : list SourceNode) (i : nat) (n : SourceNode) :
  ns !! i = Some n ->
  exists n', stop_nodes ids ns !! i = Some n' /\
    node_when n' = node_when n /\ node_buffer n' = node_buffer n /\
    (playing n = false -> playing n' = false) /\
    (In i ids -> playing n' = false).
Proof.
  revert ns n; induction ids as [|id ids IH]; intros ns n Hn.
  - exists n. simpl. repeat split; try done.
  - destruct (stop_node_spec n) as (Hp & Hw & Hb).
    destruct (Nat.eq_dec id i) as [->|Hne].
    + destruct (IH (alter stop_node i ns) (stop_node n)) as (n' & Hl & Hw' & Hb' & Hk & _).
      { by rewrite list_lookup_alter_eq, Hn. }
      exists n'. split; [exact Hl|]. rewrite Hw', Hb'. repeat split; auto.
    + destruct (IH (alter stop_node id ns) n) as (n' & Hl & Hw' & Hb' & Hk & Hin).
      { by rewrite list_lookup_alter_ne. }
      exists n'. split; [exact Hl|]. repeat split; auto.
      intros [?|?]; [done|auto].
Qed.

Lemma stop_nodes_fixed (ids : list nat) (ns : list SourceNode) (i : nat) (n : SourceNode) :
  ns !! i = Some n -> node_playback n <> Scheduled -> stop_nodes ids ns !! i = Some n.
Proof.
  revert ns; induction ids as [|id ids IH]; intros ns Hn Hp; [exact Hn|].
  unfold stop_nodes in *; simpl. apply IH; [|exact Hp].
  destruct (Nat.eq_dec id i) as [->|Hne].
  - rewrite list_lookup_alter_eq, Hn. simpl. f_equal.
    unfold stop_node. by destruct (node_playback n).
  - by rewrite list_lookup_alter_ne.
Qed.

(** Without the [try], stopping a node that has already played to its
    end is an error where the browser says so. *)
Lemma source_stop_after_end (id : nat) (n : SourceNode) (w : World) :
  stop_after_end_throws = true ->
  lookup_node id w = Some n -> node_playback n = Finished ->
  source_stop id w = (Throw InvalidStateError, w).
Proof.
  intros Hq Hn Hp. unfold source_stop, with_node. by rewrite Hn, Hp, Hq.
Qed.

(** C3. [stopAllAudio] returns normally from every state, whatever the
    nodes in the set are and whether or not stopping them throws; it
    leaves the set of active sources empty and the cursor at 0; a node
    that had already played to its end is left as it was; and a second
    call right after the first returns normally too and changes
    nothing. *)
Theorem stopAllAudio_clears_and_is_idempotent (w : World) :
  result stopAllAudio w = Normal tt /\
  audioSourcesRef (refs (exec stopAllAudio w)) = [] /\
  nextStartTimeRef (refs (exec stopAllAudio w)) = 0%Q /\
  (forall id n, lookup_node id w = Some n -> node_playback n = Finished ->
     lookup_node id (exec stopAllAudio w) = Some n) /\
  result stopAllAudio (exec stopAllAudio w) = Normal tt /\
  exec stopAllAudio (exec stopAllAudio w) = exec stopAllAudio w.
Proof.
  unfold exec, result. rewrite !stopAllAudio_spec. simpl.
  repeat split; try reflexivity.
  intros id n Hn Hp. unfold lookup_node in *; simpl.
  apply stop_nodes_fixed; [exact Hn|]. by rewrite Hp.
Qed.

(** *** The parts of [handleMessage] in closed form *)

Lemma transcriptions_spec (m : LiveServerMessage) (w : World) :
  handleMessage_transcriptions m w = (Normal tt, upd_react (accumulate m) w).
Proof.
  unfold handleMessage_transcriptions, setCurrentInput, setCurrentOutput, accumulate.
  destruct w as [[st ms ci co] f b].
  destruct (field inputTranscription m), (field outputTranscription m); reflexivity.
Qed.

Lemma addMessage_spec (r : Role) (t : JSString) (w : World) :
  addMessage r t w =
  (Normal tt, upd_react (fun s => set_messages (flush r (dateNow (browser w)) t (messages s)) s) w).
Proof.
  unfold addMessage, flush, setMessages, entry.
  destruct w as [[st ms ci co] f b].
  destruct (truthy (trim t)); reflexivity.
Qed.

Lemma turnComplete_spec (m : LiveServerMessage) (w : World) :
  handleMessage_turnComplete m w =
  (Normal tt,
   if flag turnComplete m then upd_react (flush_turn (dateNow (browser w))) w else w).
Proof.
  unfold handleMessage_turnComplete, when.
  destruct (flag turnComplete m); [|reflexivity].
  unfold setCurrentInput, setCurrentOutput, flush_turn.
  destruct w as [[st ms ci co] f b].
  unfold bind, gets; simpl.
  destruct ci as [|c ci]; simpl.
  - destruct co as [|c' co]; simpl; [reflexivity|].
    unfold ret at 1; simpl. rewrite addMessage_spec. reflexivity.
  - rewrite addMessage_spec; simpl.
    destruct co as [|c' co]; simpl; [reflexivity|].
    rewrite addMessage_spec. reflexivity.
Qed.

Lemma interrupted_spec (m : LiveServerMessage) (w : World) :
  handleMessage_interrupted m w =
  (Normal tt, if flag interrupted m then all_stopped w else w).
Proof.
  unfold handleMessage_interrupted, when.
  destruct (flag interrupted m); [apply stopAllAudio_spec|reflexivity].
Qed.

Lemma lookup_snoc {A : Type} (l : list A) (x : A) :
  (l ++ [x]) !! length l = Some x.
Proof. by apply list_lookup_middle. Qed.

Lemma alter_snoc {A : Type} (f : A -> A) (l : list A) (x : A) :
  alter f (length l) (l ++ [x]) = l ++ [f x].
Proof.
  induction l as [|y l IH]; [done|].
  unfold alter in *; simpl. by rewrite IH.
Qed.

Lemma enqueue_spec (ctx : nat) (b : AudioBuffer) (w : World) :
  handleMessage_enqueue ctx b w =
  match audioContexts (browser w) !! ctx with
  | Some c => (Normal tt, enqueued (currentTime c) b w)
  | None => (Throw TypeError, w)
  end.
Proof.
  unfold handleMessage_enqueue, createBufferSource, source_set_buffer, source_connect,
    source_start, source_set_onended, ctx_currentTime, enqueued, scheduled_node.
  js_unfold.
  unfold lookup_node, update_node, upd_browser, upd_refs, set_sourceNodes,
    set_nextStartTime, set_audioSources.
  destruct w as [r f [ns cs ms ss d]]; simpl.
  destruct (cs !! ctx) as [c|] eqn:Hc; simpl; [|reflexivity].
  repeat (rewrite ?lookup_snoc, ?alter_snoc, ?Hc; simpl).
  reflexivity.
Qed.

Lemma audio_spec (m : LiveServerMessage) (w : World) :
  handleMessage_audio m w =
  match audioDataOf m with
  | Throw e => (Throw e, w)
  | Normal (Some (c :: s)) =>
    match audioContextsRef (refs w) with
    | Some ctxs =>
      match decodeAudioData (c :: s) with
      | Throw e => (Throw e, w)
      | Normal b => handleMessage_enqueue (output ctxs) b w
      end
    | None => (Normal tt, w)
    end
  | Normal _ => (Normal tt, w)
  end.
Proof.
  unfold handleMessage_audio, handleMessage_decode.
  unfold bind at 1. unfold bind at 1, lift at 1.
  destruct (audioDataOf m) as [[[|c s]|]|e]; try reflexivity;
    unfold bind at 1, gets; destruct (audioContextsRef (refs w)); try reflexivity.
  unfold bind, lift, ret. by destruct (decodeAudioData (c :: s)).
Qed.

(** The first three parts never throw, so all four always run, in the
    order they are written. *)
Lemma handleMessage_spec (m : LiveServerMessage) (w : World) :
  handleMessage m w =
  handleMessage_audio m
    (exec (handleMessage_interrupted m)
       (exec (handleMessage_turnComplete m)
          (exec (handleMessage_transcriptions m) w))).
Proof.
  unfold handleMessage, exec. unfold bind at 1. rewrite transcriptions_spec. simpl.
  unfold bind at 1. rewrite turnComplete_spec. simpl.
  unfold bind at 1. rewrite interrupted_spec. reflexivity.
Qed.

(** The audio branch leaves the state alone or enqueues one buffer. *)
Lemma audio_cases (m : LiveServerMessage) (w : World) :
  exec (handleMessage_audio m) w = w \/
  (exists b t, handleMessage_audio m w = (Normal tt, enqueued t b w)).
Proof.
  unfold exec. rewrite audio_spec.
  destruct (audioDataOf m) as [[[|c s]|]|e]; auto.
  destruct (audioContextsRef (refs w)) as [ctxs|]; auto.
  destruct (decodeAudioData (c :: s)) as [b|e]; auto.
  rewrite enqueue_spec.
  destruct (audioContexts (browser w) !! output ctxs) as [ctx|]; simpl; [|by left].
  right. by exists b, (currentTime ctx).
Qed.

(** The state in which the audio branch of [handleMessage] starts. *)
Lemma before_audio (m : LiveServerMessage) (w : World) :
  exists r',
    exec (handleMessage_interrupted m)
      (exec (handleMessage_turnComplete m)
         (exec (handleMessage_transcriptions m) w)) =
    upd_react (fun _ => r') (if flag interrupted m then all_stopped w else w).
Proof.
  unfold exec. rewrite transcriptions_spec; simpl.
  rewrite turnComplete_spec; simpl. rewrite interrupted_spec; simpl.
  destruct w as [r f b].
  destruct (flag turnComplete m), (flag interrupted m); eexists; reflexivity.
Qed.

Lemma decode_state (m : LiveServerMessage) (w : World) :
  exec (handleMessage_decode m) w = w.
Proof.
  unfold exec, handleMessage_decode. unfold bind at 1, lift at 1.
  destruct (audioDataOf m) as [[[|c s]|]|e]; try reflexivity;
    unfold bind at 1, gets; destruct (audioContextsRef (refs w)); try reflexivity.
  unfold bind, lift, ret. by destruct (decodeAudioData (c :: s)).
Qed.

(** A suspended handler has run its first three parts and nothing
    else. *)
Lemma suspended_exec (m : LiveServerMessage) (w : World) :
  exec (handleMessage_suspend m >> ret tt) w =
  exec (handleMessage_interrupted m)
    (exec (handleMessage_turnComplete m)
       (exec (handleMessage_transcriptions m) w)).
Proof.
  unfold exec at 1, handleMessage_suspend.
  unfold bind at 1. unfold bind at 1. rewrite transcriptions_spec.
  unfold bind at 1. rewrite turnComplete_spec.
  unfold bind at 1. rewrite interrupted_spec.
  unfold exec at 3 2 1. rewrite transcriptions_spec, turnComplete_spec, interrupted_spec.
  cbn [fst snd].
  match goal with |- context [handleMessage_decode m ?w0] =>
    pose proof (decode_state m w0) as Hd; unfold exec in Hd;
    destruct (handleMessage_decode m w0) as [[p|e] w1] end;
    simpl in *; by subst.
Qed.

(** A full stop, then whatever the audio branch does: every node that
    was in the set is cut or had ended, and none of them is in the set
    any more. *)
Lemma all_stopped_lookup (w : World) (id : nat) (n : SourceNode) :
  In id (audioSourcesRef (refs w)) -> lookup_node id w = Some n ->
  exists n', lookup_node id (all_stopped w) = Some n' /\ playing n' = false /\
    node_when n' = node_when n /\ node_buffer n' = node_buffer n.
Proof.
  intros Hin Hn. unfold lookup_node in *.
  destruct (stop_nodes_lookup (audioSourcesRef (refs w)) _ _ _ Hn)
    as (n' & Hl & Hw & Hb & _ & Hp).
  exists n'. simpl. auto.
Qed.

Lemma audio_after_stop (m : LiveServerMessage) (w : World) (r' : ReactState)
    (id : nat) (n : SourceNode) :
  In id (audioSourcesRef (refs w)) -> lookup_node id w = Some n ->
  let w' := exec (handleMessage_audio m) (upd_react (fun _ => r') (all_stopped w)) in
  exists n', lookup_node id w' = Some n' /\ playing n' = false /\
    ~ In id (audioSourcesRef (refs w')).
Proof.
  intros Hin Hn.
  destruct (all_stopped_lookup w id n Hin Hn) as (n' & Hl & Hp & _).
  set (w2 := upd_react (fun _ => r') (all_stopped w)).
  assert (Hl2 : sourceNodes (browser w2) !! id = Some n') by exact Hl.
  assert (Hlt : id < length (sourceNodes (browser w2))) by (by eapply lookup_lt_Some).
  destruct (audio_cases m w2) as [->|(b & t & He)]; simpl.
  - exists n'. repeat split; auto.
  - unfold exec; rewrite He; simpl. exists n'. unfold lookup_node; simpl.
    rewrite lookup_app_l by exact Hlt. repeat split; auto.
    intros [Heq|[]]. simpl in Hlt. lia.
Qed.

(** The audio branch only adds to the heap. *)
Lemma audio_keeps_nodes (m : LiveServerMessage) (w : World) (id : nat) (n : SourceNode) :
  lookup_node id w = Some n -> lookup_node id (exec (handleMessage_audio m) w) = Some n.
Proof.
  intros Hn. unfold lookup_node in *.
  destruct (audio_cases m w) as [->|(b & t & He)]; simpl.
  - exact Hn.
  - unfold exec; rewrite He; simpl. by apply lookup_app_l_Some.
Qed.

(** Where every playing node is in the set, a full stop silences the
    whole heap. *)
Lemma all_stopped_silent (w : World) (id : nat) (n : SourceNode) :
  tracked w -> lookup_node id w = Some n ->
  exists n', lookup_node id (all_stopped w) = Some n' /\ playing n' = false.
Proof.
  intros Ht Hn. unfold lookup_node in *.
  destruct (stop_nodes_lookup (audioSourcesRef (refs w)) _ _ _ Hn)
    as (n' & Hl & _ & _ & Hquiet & Hcut).
  exists n'. split; [exact Hl|].
  destruct (playing n) eqn:Hp; [|by apply Hquiet].
  apply Hcut. by apply (Ht id n).
Qed.

(** C7. When a message carries the interruption flag, the handler runs
    [stopAllAudio] before it touches the message's audio: at that point
    the set of active sources is empty, the cursor is 0, and every
    source that was in the set is cut (or had already ended).  When the
    handler is done, none of those sources is playing or in the set;
    unless the same message scheduled new audio, the set is still empty
    and the cursor still 0; and since every playing node is in the set
    (an invariant of the event loop), no node that existed before the
    message is playing. *)
Theorem interruption_stops_all_sources (m : LiveServerMessage) (w : World) :
  flag interrupted m = true ->
  (exists w2,
     exec (handleMessage m) w = exec (handleMessage_audio m) w2 /\
     audioSourcesRef (refs w2) = [] /\
     nextStartTimeRef (refs w2) = 0%Q /\
     forall id n, In id (audioSourcesRef (refs w)) -> lookup_node id w = Some n ->
       exists n', lookup_node id w2 = Some n' /\ playing n' = false) /\
  (forall id n, In id (audioSourcesRef (refs w)) -> lookup_node id w = Some n ->
     exists n', lookup_node id (exec (handleMessage m) w) = Some n' /\
       playing n' = false /\
       ~ In id (audioSourcesRef (refs (exec (handleMessage m) w)))) /\
  (audioDataOf m = Normal None ->
     audioSourcesRef (refs (exec (handleMessage m) w)) = [] /\
     nextStartTimeRef (refs (exec (handleMessage m) w)) = 0%Q) /\
  (tracked w ->
   forall id n, lookup_node id w = Some n ->
     exists n', lookup_node id (exec (handleMessage m) w) = Some n' /\
       playing n' = false).
Proof.
  intros Hint.
  destruct (before_audio m w) as [r' Hpre]. rewrite Hint in Hpre.
  assert (Hfinal : exec (handleMessage m) w =
            exec (handleMessage_audio m) (upd_react (fun _ => r') (all_stopped w))).
  { unfold exec at 1. rewrite handleMessage_spec. by rewrite Hpre. }
  split; [|split; [|split]].
  - exists (upd_react (fun _ => r') (all_stopped w)).
    repeat split; [exact Hfinal|].
    intros id n Hin Hn.
    destruct (all_stopped_lookup w id n Hin Hn) as (n' & Hl & Hp & _). eauto.
  - intros id n Hin Hn. rewrite Hfinal. by apply (audio_after_stop m w r' id n).
  - intros Hnone. rewrite Hfinal. unfold exec. rewrite audio_spec, Hnone. by simpl.
  - intros Ht id n Hn. rewrite Hfinal.
    destruct (all_stopped_silent w id n Ht Hn) as (n' & Hl & Hp).
    exists n'. split; [|exact Hp]. by apply audio_keeps_nodes.
Qed.

(** *** [stopSession] in closed form *)

Lemma valid_lookup {A : Type} (heap : list A) (i : nat) :
  (i <? length heap) = true -> exists x, heap !! i = Some x.
Proof.
  intros H. apply Nat.ltb_lt in H.
  destruct (lookup_lt_is_Some_2 heap i H) as [x Hx]. by exists x.
Qed.

Lemma lookup_alter_Some {A : Type} (f : A -> A) (i j : nat) (l : list A) (x : A) :
  l !! j = Some x -> exists y, alter f i l !! j = Some y.
Proof.
  intros H. apply valid_lookup, Nat.ltb_lt. rewrite length_alter.
  by eapply lookup_lt_Some.
Qed.

Lemma stopSession_spec (w : World) :
  refs_valid w = true -> stopSession w = (Normal tt, session_stopped w).
Proof.
  unfold refs_valid, valid_ref. intros Hv.
  apply andb_prop in Hv as [Hv Hctx]. apply andb_prop in Hv as [Hses Hstr].
  unfold stopSession, session_stopped, released, alter_at, setStatus.
  unfold session_close, stream_stop_tracks, ctx_close.
  destruct w as [r [cur ctxs srcs ses str] [ns cs ms ss d]]; simpl in *.
  destruct ses as [s|], str as [t|], ctxs as [[i o]|]; simpl in *;
    repeat match goal with
    | H : _ && _ = true |- _ => apply andb_prop in H as [? ?]
    | H : (_ <? _) = true |- _ => apply valid_lookup in H as [? ?]
    end;
    try match goal with
    | H : cs !! o = Some _ |- _ =>
      destruct (lookup_alter_Some close_context i o cs _ H) as [? ?]
    end;
    unfold bind, gets, modify, ret; simpl;
    repeat match goal with
    | H : _ !! _ = Some _ |- _ => rewrite H; clear H; simpl
    end;
    rewrite stopAllAudio_spec; reflexivity.
Qed.

Lemma alter_close_lookup (i j : nat) (cs : list AudioContext) (c : AudioContext) :
  cs !! j = Some c ->
  exists c', alter close_context i cs !! j = Some c' /\
    (ctx_closed c = true -> ctx_closed c' = true) /\
    (i = j -> ctx_closed c' = true).
Proof.
  intros Hc. destruct (Nat.eq_dec i j) as [->|Hne].
  - exists (close_context c). rewrite list_lookup_alter_eq, Hc. by simpl.
  - exists c. rewrite list_lookup_alter_ne by done. auto.
Qed.

(** C4. From any state whose references point into the heap (every
    state the component reaches, connecting ones included),
    [stopSession] returns normally and releases whatever is held: the
    session is closed, the stream's tracks are stopped, both audio
    contexts are closed, every active source is cut, all references are
    dropped, the cursor is 0 and the status is [IDLE].  A second call
    finds nothing to release, returns normally too and leaves the state
    as it is. *)
Theorem stopSession_releases_and_is_idempotent (w : World) :
  refs_valid w = true ->
  let w' := exec stopSession w in
  result stopSession w = Normal tt /\
  (sessionRef (refs w') = None /\ streamRef (refs w') = None /\
   audioContextsRef (refs w') = None /\ audioSourcesRef (refs w') = [] /\
   nextStartTimeRef (refs w') = 0%Q /\ status (react w') = IDLE) /\
  (forall s, sessionRef (refs w) = Some s ->
     sessions (browser w') !! s = Some {| session_closed := true |}) /\
  (forall s, streamRef (refs w) = Some s ->
     mediaStreams (browser w') !! s = Some {| tracks_stopped := true |}) /\
  (forall p, audioContextsRef (refs w) = Some p ->
     exists ci co,
       audioContexts (browser w') !! input p = Some ci /\ ctx_closed ci = true /\
       audioContexts (browser w') !! output p = Some co /\ ctx_closed co = true) /\
  (forall id n, In id (audioSourcesRef (refs w)) -> lookup_node id w = Some n ->
     exists n', lookup_node id w' = Some n' /\ playing n' = false) /\
  result stopSession w' = Normal tt /\
  exec stopSession w' = w'.
Proof.
  intros Hv w'. subst w'. unfold exec, result.
  rewrite (stopSession_spec w Hv). cbn [fst snd].
  assert (Hv' : refs_valid (session_stopped w) = true) by reflexivity.
  rewrite (stopSession_spec _ Hv'). simpl.
  unfold refs_valid, valid_ref in Hv.
  apply andb_prop in Hv as [Hv Hctx]. apply andb_prop in Hv as [Hses Hstr].
  split; [reflexivity|]. split; [by repeat split|].
  split; [|split; [|split; [|split; [|split]]]].
  - intros s Hs. rewrite Hs in *. simpl.
    destruct (valid_lookup _ _ Hses) as [x Hx].
    by rewrite list_lookup_alter_eq, Hx.
  - intros s Hs. rewrite Hs in *. simpl.
    destruct (valid_lookup _ _ Hstr) as [x Hx].
    by rewrite list_lookup_alter_eq, Hx.
  - intros p Hp. rewrite Hp in *.
    apply andb_prop in Hctx as [Hi Ho].
    destruct (valid_lookup _ _ Hi) as [ci Hci], (valid_lookup _ _ Ho) as [co Hco].
    destruct (alter_close_lookup (input p) (input p) _ _ Hci) as (ci1 & Hci1 & _ & Hc1).
    destruct (alter_close_lookup (output p) (input p) _ _ Hci1) as (ci2 & Hci2 & Hk2 & _).
    destruct (alter_close_lookup (input p) (output p) _ _ Hco) as (co1 & Hco1 & _ & _).
    destruct (alter_close_lookup (output p) (output p) _ _ Hco1) as (co2 & Hco2 & _ & Hc2).
    exists ci2, co2. auto.
  - intros id n Hin Hn. unfold lookup_node in *. simpl.
    destruct (stop_nodes_lookup (audioSourcesRef (refs w)) _ _ _ Hn)
      as (n' & Hl & _ & _ & _ & Hp).
    exists n'. auto.
  - reflexivity.
  - destruct w as [r f [ns cs ms ss d]]. reflexivity.
Qed.

(** *** The output timeline *)

Lemma duration_nonneg (b : AudioBuffer) : (0 <= duration b)%Q.
Proof. unfold duration, Qle; simpl. lia. Qed.

Lemma extends_same (w w' : World) :
  sourceNodes (browser w') = sourceNodes (browser w) ->
  nextStartTimeRef (refs w') = nextStartTimeRef (refs w) ->
  timeline_extends w w'.
Proof.
  intros Hn Hc. unfold timeline_extends. rewrite Hn, Hc.
  split; [apply Qle_refl|]. split; [lia|]. split.
  - intros i n Hi. by exists n.
  - intros n s Hi. apply lookup_lt_Some in Hi. lia.
Qed.

Lemma extends_alter (w w' : World) (f : SourceNode -> SourceNode) (id : nat) :
  (forall n, node_when (f n) = node_when n /\ node_buffer (f n) = node_buffer n) ->
  sourceNodes (browser w') = alter f id (sourceNodes (browser w)) ->
  nextStartTimeRef (refs w') = nextStartTimeRef (refs w) ->
  timeline_extends w w'.
Proof.
  intros Hf Hn Hc. unfold timeline_extends. rewrite Hn, Hc, length_alter.
  split; [apply Qle_refl|]. split; [lia|]. split.
  - intros i n Hi. destruct (Nat.eq_dec id i) as [->|Hne].
    + exists (f n). rewrite list_lookup_alter_eq, Hi. split; [done|apply Hf].
    + exists n. by rewrite list_lookup_alter_ne.
  - intros n s Hi. apply lookup_lt_Some in Hi. rewrite length_alter in Hi. lia.
Qed.

Lemma extends_enqueued (w w' : World) (b : AudioBuffer) (t : Q) :
  sourceNodes (browser w') =
    sourceNodes (browser w) ++ [scheduled_node b (Qmax (nextStartTimeRef (refs w)) t)] ->
  nextStartTimeRef (refs w') = (Qmax (nextStartTimeRef (refs w)) t + duration b)%Q ->
  timeline_extends w w'.
Proof.
  intros Hn Hc. unfold timeline_extends. rewrite Hn, Hc, length_app; simpl.
  pose proof (duration_nonneg b) as Hd.
  pose proof (Q.le_max_l (nextStartTimeRef (refs w)) t) as Hm.
  split; [lra|]. split; [lia|]. split.
  - intros i n Hi. exists n. by rewrite (lookup_app_l_Some _ _ _ _ Hi).
  - intros n s Hi Hs. rewrite lookup_snoc in Hi. injection Hi as <-.
    simpl in Hs. injection Hs as <-. exists b. split; [done|]. split; [done|lra].
Qed.

Lemma audio_extends (m : LiveServerMessage) (w : World) (r' : ReactState) :
  timeline_extends w (exec (handleMessage_audio m) (upd_react (fun _ => r') w)).
Proof.
  set (w1 := upd_react (fun _ => r') w).
  destruct (audio_cases m w1) as [->|(b & t & He)].
  - by apply extends_same.
  - unfold exec; rewrite He. by apply (extends_enqueued _ _ b t).
Qed.

Lemma step_extends (ev : Event) (w : World) :
  stops ev = false -> timeline_extends w (step ev w).
Proof.
  intros Hs. unfold step.
  destruct ev as [| [|] | [|] | | m | m | ctx b | | | | id | id | ctx t | t];
    simpl in Hs; try discriminate; try (by apply extends_same).
  - destruct (before_audio m w) as [r' Hpre]. rewrite Hs in Hpre.
    unfold exec at 1; simpl. rewrite handleMessage_spec, Hpre.
    apply audio_extends.
  - destruct (before_audio m w) as [r' Hpre]. rewrite Hs in Hpre.
    unfold handler. rewrite suspended_exec, Hpre. by apply extends_same.
  - unfold exec; simpl. rewrite enqueue_spec.
    destruct (audioContexts (browser w) !! ctx) as [c|]; simpl.
    + by apply (extends_enqueued _ _ b (currentTime c)).
    + by apply extends_same.
  - apply (extends_alter _ _ playback_finished id); try done.
    intros n. unfold playback_finished. by destruct n as [? ? ? [] ?].
  - apply extends_same; unfold exec; simpl; unfold with_node;
      destruct (lookup_node id w) as [n|]; try done;
      destruct (node_playback n); try done;
      by destruct (node_onended n).
Qed.

(** [stopSession] from any state: it gives up before it reaches
    [stopAllAudio] (a reference pointing at nothing), or it cuts every
    active source and empties the set. *)
Lemma stopSession_cases (w : World) :
  (sourceNodes (browser (exec stopSession w)) = sourceNodes (browser w) /\
   audioSourcesRef (refs (exec stopSession w)) = audioSourcesRef (refs w) /\
   nextStartTimeRef (refs (exec stopSession w)) = nextStartTimeRef (refs w)) \/
  (sourceNodes (browser (exec stopSession w)) =
     stop_nodes (audioSourcesRef (refs w)) (sourceNodes (browser w)) /\
   audioSourcesRef (refs (exec stopSession w)) = [] /\
   nextStartTimeRef (refs (exec stopSession w)) = 0%Q).
Proof.
  unfold exec, stopSession, setStatus, session_close, stream_stop_tracks, ctx_close.
  destruct w as [r [cur ctxs srcs ses str] [ns cs ms ss d]]; simpl.
  destruct ses as [s|], str as [t|], ctxs as [[i o]|];
    unfold bind, gets, modify, ret; simpl;
    repeat match goal with
    | |- context [?l !! ?k] =>
      lazymatch l with
      | stop_nodes _ _ => fail
      | _ => destruct (l !! k) eqn:?; simpl; [|by left]
      end
    end;
    rewrite stopAllAudio_spec; simpl; by right.
Qed.

Lemma onclose_exec (w : World) :
  exec onclose w = exec stopSession (upd_react (set_status IDLE) w).
Proof. reflexivity. Qed.

(** C5. A step that does not run [stopAllAudio] never moves the cursor
    back.  The cursor goes down only in a step that does (the stop
    button, the close notification, an interrupted message), and in that
    same step every source that was active is cut and leaves the set. *)
Theorem cursor_lowered_only_by_full_stop (ev : Event) (w : World) :
  (stops ev = false ->
   (nextStartTimeRef (refs w) <= nextStartTimeRef (refs (step ev w)))%Q) /\
  ((nextStartTimeRef (refs (step ev w)) < nextStartTimeRef (refs w))%Q ->
   stops ev = true /\
   forall id n, In id (audioSourcesRef (refs w)) -> lookup_node id w = Some n ->
     exists n', lookup_node id (step ev w) = Some n' /\ playing n' = false /\
       ~ In id (audioSourcesRef (refs (step ev w)))).
Proof.
  split.
  - intros Hs. by destruct (step_extends ev w Hs) as [H _].
  - intros Hlt.
    destruct (stops ev) eqn:Hs.
    2:{ destruct (step_extends ev w Hs) as [H _]. lra. }
    split; [reflexivity|]. intros id n Hin Hn.
    destruct ev as [| g | c | | m | m | ctx b | | | | k | k | ctx t | t];
      simpl in Hs; try discriminate.
    + (* an interrupted message *)
      destruct (before_audio m w) as [r' Hpre]. rewrite Hs in Hpre.
      unfold step, exec at 1 2; simpl. rewrite handleMessage_spec, Hpre.
      by apply (audio_after_stop m w r' id n).
    + (* an interrupted message, suspended before its audio *)
      destruct (before_audio m w) as [r' Hpre]. rewrite Hs in Hpre.
      unfold step, handler. rewrite suspended_exec, Hpre.
      destruct (all_stopped_lookup w id n Hin Hn) as (n' & Hl & Hp & _).
      exists n'. repeat split; auto.
    + (* the close notification *)
      unfold step, handler in *. rewrite onclose_exec in *.
      destruct (stopSession_cases (upd_react (set_status IDLE) w))
        as [(_ & _ & Heq)|(Hnodes & Hnil & _)].
      * rewrite Heq in Hlt. simpl in Hlt. lra.
      * rewrite Hnil. unfold lookup_node in *. rewrite Hnodes. simpl.
        destruct (stop_nodes_lookup (audioSourcesRef (refs w)) _ _ _ Hn)
          as (n' & Hl & _ & _ & _ & Hp).
        exists n'. auto.
    + (* the stop button *)
      unfold step, handler in *.
      destruct (stopSession_cases w) as [(_ & _ & Heq)|(Hnodes & Hnil & _)].
      * rewrite Heq in Hlt. lra.
      * rewrite Hnil. unfold lookup_node in *. rewrite Hnodes.
        destruct (stop_nodes_lookup (audioSourcesRef (refs w)) _ _ _ Hn)
          as (n' & Hl & _ & _ & _ & Hp).
        exists n'. auto.
Qed.

Lemma ordered_initially (w : World) :
  ordered_from (length (sourceNodes (browser w))) w.
Proof.
  split.
  - intros i n s b Hi Hn. apply lookup_lt_Some in Hn. lia.
  - intros i j ni nj si sj bi Hi Hij Hn. apply lookup_lt_Some in Hn. lia.
Qed.

Lemma ordered_extends (base : nat) (w w' : World) :
  timeline_extends w w' -> ordered_from base w -> ordered_from base w'.
Proof.
  intros (Hcur & Hlen & Hold & Hnew) [Hend Hord].
  assert (Hback : forall i n, (i < length (sourceNodes (browser w)))%nat ->
            sourceNodes (browser w') !! i = Some n ->
            exists n0, sourceNodes (browser w) !! i = Some n0 /\
              node_when n0 = node_when n /\ node_buffer n0 = node_buffer n).
  { intros i n Hi Hn.
    destruct (lookup_lt_is_Some_2 _ _ Hi) as [n0 Hn0].
    destruct (Hold i n0 Hn0) as (n' & Hn' & Hw & Hb).
    exists n0. split; [done|]. split; congruence. }
  assert (Hlast : forall i n, (length (sourceNodes (browser w)) <= i)%nat ->
            sourceNodes (browser w') !! i = Some n ->
            i = length (sourceNodes (browser w))).
  { intros i n Hi Hn. apply lookup_lt_Some in Hn. lia. }
  split.
  - intros i n s b Hi Hn Hs Hb.
    destruct (Nat.lt_ge_cases i (length (sourceNodes (browser w)))) as [Hlt|Hge].
    + destruct (Hback i n Hlt Hn) as (n0 & Hn0 & Hw & Hbuf).
      assert ((s + duration b <= nextStartTimeRef (refs w))%Q).
      { apply (Hend i n0 s b Hi Hn0); congruence. }
      lra.
    + pose proof (Hlast i n Hge Hn) as ->.
      destruct (Hnew n s Hn Hs) as (b' & Hb' & _ & Hle).
      assert (b' = b) as -> by congruence. exact Hle.
  - intros i j ni nj si sj bi Hi Hij Hni Hnj Hsi Hbi Hsj.
    destruct (Nat.lt_ge_cases j (length (sourceNodes (browser w)))) as [Hlt|Hge].
    + destruct (Hback j nj Hlt Hnj) as (nj0 & Hnj0 & Hwj & _).
      destruct (Hback i ni ltac:(lia) Hni) as (ni0 & Hni0 & Hwi & Hbuf).
      apply (Hord i j ni0 nj0 si sj bi Hi Hij Hni0 Hnj0); congruence.
    + pose proof (Hlast j nj Hge Hnj) as ->.
      destruct (Hback i ni Hij Hni) as (ni0 & Hni0 & Hwi & Hbuf).
      destruct (Hnew nj sj Hnj Hsj) as (b' & _ & Hle & _).
      assert ((si + duration bi <= nextStartTimeRef (refs w))%Q).
      { apply (Hend i ni0 si bi Hi Hni0); congruence. }
      lra.
Qed.

Lemma ordered_run (base : nat) (evs : list Event) (w : World) :
  forallb (fun ev => negb (stops ev)) evs = true ->
  ordered_from base w -> ordered_from base (run evs w).
Proof.
  revert w; induction evs as [|ev evs IH]; intros w Hall Hord; [exact Hord|].
  simpl in Hall. apply andb_prop in Hall as [Hev Hall].
  apply negb_true_iff in Hev.
  unfold run; simpl. apply IH; [exact Hall|].
  apply (ordered_extends base w); [by apply step_extends|exact Hord].
Qed.

(** One message that carries audio and no interruption flag, received
    while the output context is there: exactly one node is added, it is
    started at [max(cursor, currentTime)], and the cursor moves to its
    end. *)
Lemma enqueue_one (m : LiveServerMessage) (w : World) (c0 : N) (data : JSString)
    (ctxs : ContextPair) (c : AudioContext) (b : AudioBuffer) :
  flag interrupted m = false ->
  audioDataOf m = Normal (Some (c0 :: data)) ->
  decodeAudioData (c0 :: data) = Normal b ->
  audioContextsRef (refs w) = Some ctxs ->
  audioContexts (browser w) !! output ctxs = Some c ->
  let startTime := Qmax (nextStartTimeRef (refs w)) (currentTime c) in
  result (handleMessage m) w = Normal tt /\
  sourceNodes (browser (exec (handleMessage m) w)) =
    sourceNodes (browser w) ++ [scheduled_node b startTime] /\
  nextStartTimeRef (refs (exec (handleMessage m) w)) = (startTime + duration b)%Q /\
  audioSourcesRef (refs (exec (handleMessage m) w)) =
    set_add (length (sourceNodes (browser w))) (audioSourcesRef (refs w)).
Proof.
  intros Hint Hdata Hdec Hctx Hc startTime.
  destruct (before_audio m w) as [r' Hpre]. rewrite Hint in Hpre.
  unfold exec at 1 2 3, result. rewrite handleMessage_spec, Hpre.
  rewrite audio_spec, Hdata. simpl. rewrite Hctx, Hdec, enqueue_spec. simpl.
  rewrite Hc. by simpl.
Qed.

(** C2. Each enqueue starts its buffer at [max(cursor, currentTime)]
    and moves the cursor to the buffer's end.  Hence, over any run of
    events in which nothing stops the audio (whatever the clocks read
    when the messages arrive and whatever else happens in between), the
    nodes created during the run, taken in the order they were enqueued,
    have non-decreasing start times, and each starts no earlier than the
    one before it ends. *)
Theorem enqueue_starts_ordered_without_overlap :
  (forall (m : LiveServerMessage) (w : World) (c0 : N) (data : JSString)
      (ctxs : ContextPair) (c : AudioContext) (b : AudioBuffer),
     flag interrupted m = false ->
     audioDataOf m = Normal (Some (c0 :: data)) ->
     decodeAudioData (c0 :: data) = Normal b ->
     audioContextsRef (refs w) = Some ctxs ->
     audioContexts (browser w) !! output ctxs = Some c ->
     sourceNodes (browser (exec (handleMessage m) w)) =
       sourceNodes (browser w) ++
         [scheduled_node b (Qmax (nextStartTimeRef (refs w)) (currentTime c))] /\
     nextStartTimeRef (refs (exec (handleMessage m) w)) =
       (Qmax (nextStartTimeRef (refs w)) (currentTime c) + duration b)%Q) /\
  (forall (evs : list Event) (w : World),
     forallb (fun ev => negb (stops ev)) evs = true ->
     forall i j ni nj si sj bi,
       (length (sourceNodes (browser w)) <= i)%nat -> (i < j)%nat ->
       sourceNodes (browser (run evs w)) !! i = Some ni ->
       sourceNodes (browser (run evs w)) !! j = Some nj ->
       node_when ni = Some si -> node_buffer ni = Some bi ->
       node_when nj = Some sj ->
       (si <= sj)%Q /\ (si + duration bi <= sj)%Q).
Proof.
  split.
  - intros m w c0 data ctxs c b Hint Hdata Hdec Hctx Hc.
    destruct (enqueue_one m w c0 data ctxs c b Hint Hdata Hdec Hctx Hc)
      as (_ & Hn & Hcur & _). auto.
  - intros evs w Hall i j ni nj si sj bi Hi Hij Hni Hnj Hsi Hbi Hsj.
    destruct (ordered_run _ evs w Hall (ordered_initially w)) as [_ Hord].
    pose proof (Hord i j ni nj si sj bi Hi Hij Hni Hnj Hsi Hbi Hsj) as Hle.
    pose proof (duration_nonneg bi). split; lra.
Qed.

(** *** The transcript *)

Lemma audio_react (m : LiveServerMessage) (w : World) :
  react (exec (handleMessage_audio m) w) = react w.
Proof.
  destruct (audio_cases m w) as [->|(b & t & He)]; try done.
  unfold exec; by rewrite He.
Qed.

(** What [handleMessage] does to the React cells. *)
Lemma handleMessage_react (m : LiveServerMessage) (w : World) :
  react (exec (handleMessage m) w) =
  if flag turnComplete m
  then flush_turn (dateNow (browser w)) (accumulate m (react w))
  else accumulate m (react w).
Proof.
  assert (Hex : forall w0, exec (handleMessage m) w = exec (handleMessage_audio m) w0 ->
            react (exec (handleMessage m) w) = react w0).
  { intros w0 ->. apply audio_react. }
  rewrite (Hex _ (f_equal snd (handleMessage_spec m w))).
  unfold exec.
  rewrite transcriptions_spec; simpl. rewrite turnComplete_spec; simpl.
  rewrite interrupted_spec; simpl.
  by destruct (flag turnComplete m), (flag interrupted m).
Qed.

(** Suspended or not, the handler has done all it does to the React
    cells before its [await]. *)
Lemma handleMessage_react_suspended (m : LiveServerMessage) (w : World) :
  react (exec (handleMessage m) w) = react (exec (handleMessage_suspend m >> ret tt) w).
Proof.
  rewrite suspended_exec.
  assert (Hex : forall w0, exec (handleMessage m) w = exec (handleMessage_audio m) w0 ->
            react (exec (handleMessage m) w) = react w0).
  { intros w0 ->. apply audio_react. }
  apply Hex. exact (f_equal snd (handleMessage_spec m w)).
Qed.

Lemma slice_last_snoc {A : Type} (n : nat) (l : list A) (x : A) :
  slice_last (S n) (l ++ [x]) = slice_last n l ++ [x].
Proof.
  unfold slice_last. rewrite length_app; simpl.
  replace (length l + 1 - S n)%nat with (length l - n)%nat by lia.
  apply drop_app_le. lia.
Qed.

Lemma slice_last_suffix {A : Type} (n : nat) (l : list A) :
  exists dropped, l = dropped ++ slice_last n l.
Proof.
  exists (take (length l - n) l). unfold slice_last. by rewrite take_drop.
Qed.

Lemma slice_last_length {A : Type} (n : nat) (l : list A) :
  length (slice_last n l) = Nat.min n (length l).
Proof. unfold slice_last. rewrite length_drop. lia. Qed.

Lemma flush_keeps_last (r : Role) (now : Z) (fragment : JSString)
    (log : list Message) (e : Message) :
  In e (flush r now fragment (log ++ [e])).
Proof.
  unfold flush. destruct (truthy (trim fragment)).
  - rewrite (slice_last_snoc 9). apply in_or_app; left. apply in_or_app; right. by left.
  - apply in_or_app; right. by left.
Qed.

(** C10. One call of [handleMessage] runs its four parts in the order
    they are written (transcriptions, end-of-turn flush, interruption,
    audio), all four whenever the first three are reached, since these
    never throw.  So a message that is flagged as interrupted and
    carries audio first cuts every active source and resets the cursor,
    and only then schedules its own chunk, which therefore starts at
    [max(0, currentTime)] and is alone in the set; and a message that
    carries a transcription fragment and ends the turn flushes the
    pending text with that fragment appended. *)
Theorem handleMessage_processes_fields_in_order :
  (forall (m : LiveServerMessage) (w : World),
     handleMessage m w =
     handleMessage_audio m
       (exec (handleMessage_interrupted m)
          (exec (handleMessage_turnComplete m)
             (exec (handleMessage_transcriptions m) w)))) /\
  (forall (m : LiveServerMessage) (w : World) (c0 : N) (data : JSString)
      (ctxs : ContextPair) (c : AudioContext) (b : AudioBuffer),
     flag interrupted m = true ->
     audioDataOf m = Normal (Some (c0 :: data)) ->
     decodeAudioData (c0 :: data) = Normal b ->
     audioContextsRef (refs w) = Some ctxs ->
     audioContexts (browser w) !! output ctxs = Some c ->
     let w' := exec (handleMessage m) w in
     sourceNodes (browser w') =
       stop_nodes (audioSourcesRef (refs w)) (sourceNodes (browser w)) ++
         [scheduled_node b (Qmax 0 (currentTime c))] /\
     nextStartTimeRef (refs w') = (Qmax 0 (currentTime c) + duration b)%Q /\
     audioSourcesRef (refs w') = [length (sourceNodes (browser w))] /\
     forall id n, In id (audioSourcesRef (refs w)) -> lookup_node id w = Some n ->
       exists n', lookup_node id w' = Some n' /\ playing n' = false) /\
  (forall (m : LiveServerMessage) (w : World) (t : Transcription),
     flag turnComplete m = true ->
     field inputTranscription m = Some t ->
     let fragment := concat_text (currentInput (react w)) (transcription_text t) in
     truthy (trim fragment) = true ->
     In (entry user fragment (dateNow (browser w)))
        (messages (react (exec (handleMessage m) w))) /\
     currentInput (react (exec (handleMessage m) w)) = []) /\
  (forall (m : LiveServerMessage) (w : World) (t : Transcription),
     flag turnComplete m = true ->
     field outputTranscription m = Some t ->
     let fragment := concat_text (currentOutput (react w)) (transcription_text t) in
     truthy (trim fragment) = true ->
     In (entry agent fragment (dateNow (browser w)))
        (messages (react (exec (handleMessage m) w))) /\
     currentOutput (react (exec (handleMessage m) w)) = []).
Proof.
  split; [exact handleMessage_spec|]. split; [|split].
  - intros m w c0 data ctxs c b Hint Hdata Hdec Hctx Hc w'. subst w'.
    destruct (before_audio m w) as [r' Hpre]. rewrite Hint in Hpre.
    assert (Hfinal : exec (handleMessage m) w =
              enqueued (currentTime c) b (upd_react (fun _ => r') (all_stopped w))).
    { unfold exec at 1. rewrite handleMessage_spec, Hpre.
      rewrite audio_spec, Hdata. simpl. rewrite Hctx, Hdec, enqueue_spec. simpl.
      by rewrite Hc. }
    rewrite Hfinal. simpl. rewrite stop_nodes_length.
    repeat split; try reflexivity.
    intros id n Hin Hn.
    destruct (all_stopped_lookup w id n Hin Hn) as (n' & Hl & Hp & _).
    exists n'. split; [|exact Hp]. unfold lookup_node in *; simpl in *.
    by apply lookup_app_l_Some.
  - intros m w t Htc Hin fragment Hvis.
    rewrite handleMessage_react, Htc. unfold flush_turn, accumulate; simpl.
    rewrite Hin. fold fragment. split; [|reflexivity].
    unfold flush at 2. rewrite Hvis. apply flush_keeps_last.
  - intros m w t Htc Hout fragment Hvis.
    rewrite handleMessage_react, Htc. unfold flush_turn, accumulate; simpl.
    rewrite Hout. fold fragment. split; [|reflexivity].
    unfold flush at 1. rewrite Hvis. apply in_or_app; right. by left.
Qed.

Lemma truthy_trimStart (s : JSString) : truthy (trimStart s) = has_visible s.
Proof.
  induction s as [|c s IH]; [done|].
  simpl. by destruct (is_whitespace c).
Qed.

Lemma has_visible_trimStart (s : JSString) : has_visible (trimStart s) = has_visible s.
Proof.
  induction s as [|c s IH]; [done|].
  simpl. destruct (is_whitespace c) eqn:Hc; [exact IH|]. simpl. by rewrite Hc.
Qed.

Lemma has_visible_rev (s : JSString) : has_visible (rev s) = has_visible s.
Proof.
  unfold has_visible. induction s as [|c s IH]; [done|].
  simpl. rewrite existsb_app, IH. simpl.
  by destruct (is_whitespace c), (existsb _ s).
Qed.

Lemma truthy_rev (s : JSString) : truthy (rev s) = truthy s.
Proof.
  destruct s as [|c s]; [done|]. simpl.
  by destruct (rev s).
Qed.

(** [!text.trim()] is false exactly for a text that shows something. *)
Lemma trim_truthy (s : JSString) : truthy (trim s) = has_visible s.
Proof.
  unfold trim. rewrite truthy_rev, truthy_trimStart, has_visible_rev.
  apply has_visible_trimStart.
Qed.

Lemma flush_spec (r : Role) (now : Z) (fragment : JSString) (log : list Message) :
  flush r now fragment log =
  if has_visible fragment then slice_last 10 log ++ [entry r fragment now] else log.
Proof. unfold flush. by rewrite trim_truthy. Qed.

(** The log after one [addMessage]: the last ten earlier entries and
    the new one, so never more than eleven once it was that short. *)
Lemma addMessage_log_length (r : Role) (t : JSString) (w : World) :
  (length (messages (react (exec (addMessage r t) w))) <=
   Nat.max (length (messages (react w))) 11)%nat.
Proof.
  unfold exec. rewrite addMessage_spec; simpl. rewrite flush_spec.
  destruct (has_visible t); [|lia].
  rewrite length_app, slice_last_length. cbn [length]. lia.
Qed.

Lemma slice_last_all {A : Type} (n : nat) (l : list A) :
  (length l <= n)%nat -> slice_last n l = l.
Proof. intros H. unfold slice_last. by replace (length l - n)%nat with 0%nat by lia. Qed.

Lemma slice_last_app {A : Type} (n m : nat) (l k : list A) :
  (n <= m + length k)%nat ->
  slice_last n (slice_last m l ++ k) = slice_last n (l ++ k).
Proof.
  intros Hn.
  destruct (Nat.le_gt_cases (length l) m) as [Hle|Hgt].
  { by rewrite (slice_last_all m l Hle). }
  destruct (slice_last_suffix m l) as [d Hd].
  assert (Hlen : length (slice_last m l) = m) by (rewrite slice_last_length; lia).
  rewrite Hd at 2. rewrite <- app_assoc.
  unfold slice_last at 1 3. rewrite !length_app, Hlen.
  replace (length d + (m + length k) - n)%nat
    with (length d + (m + length k - n))%nat by lia.
  by rewrite drop_app_add.
Qed.

(** The log in general: after any number of texts that show something,
    it holds the last eleven entries. *)
Lemma transcript_log_is_last_eleven (r : Role) (texts : list JSString) (w : World) :
  (length (messages (react w)) <= 11)%nat ->
  forallb has_visible texts = true ->
  messages (react (exec (forEach texts (addMessage r)) w)) =
  slice_last 11
    (messages (react w) ++ List.map (fun t => entry r t (dateNow (browser w))) texts).
Proof.
  revert w; induction texts as [|t texts IH]; intros w Hlen Hvis.
  - simpl. rewrite app_nil_r. by rewrite slice_last_all.
  - simpl in Hvis. apply andb_prop in Hvis as [Ht Hvis].
    assert (Hstep : exec (forEach (t :: texts) (addMessage r)) w =
              exec (forEach texts (addMessage r)) (exec (addMessage r t) w)).
    { unfold exec; simpl. unfold bind at 1. by rewrite addMessage_spec. }
    rewrite Hstep.
    assert (Hlog : messages (react (exec (addMessage r t) w)) =
              slice_last 10 (messages (react w)) ++ [entry r t (dateNow (browser w))]).
    { unfold exec. rewrite addMessage_spec; simpl. by rewrite flush_spec, Ht. }
    assert (Hnow : dateNow (browser (exec (addMessage r t) w)) = dateNow (browser w)).
    { unfold exec. by rewrite addMessage_spec. }
    rewrite IH; [|rewrite Hlog, length_app, slice_last_length; cbn [length]; lia|exact Hvis].
    rewrite Hlog, Hnow. cbn [List.map].
    rewrite <- !app_assoc. apply slice_last_app. cbn [length app]. lia.
Qed.

(** C6 (as amended). At the end of a turn, each pending fragment (with
    the text this very message adds to it) that shows something goes
    into the log as exactly one entry tagged with its role, the user's
    before the agent's, after a suffix of the earlier log; an empty or
    whitespace-only fragment adds no entry; when nothing is added the
    log is unchanged; and both fragments are empty afterwards. *)
Theorem turn_complete_flushes_visible_fragments (m : LiveServerMessage) (w : World) :
  flag turnComplete m = true ->
  let pending := accumulate m (react w) in
  let w' := exec (handleMessage m) w in
  (exists dropped kept,
     messages (react w) = dropped ++ kept /\
     messages (react w') = kept ++ flushed_entries (dateNow (browser w)) pending /\
     (flushed_entries (dateNow (browser w)) pending = [] -> dropped = [])) /\
  currentInput (react w') = [] /\
  currentOutput (react w') = [].
Proof.
  intros Htc pending w'. subst w'.
  rewrite handleMessage_react, Htc. fold pending.
  assert (Hm : messages pending = messages (react w)) by reflexivity.
  rewrite <- Hm. clearbody pending. clear Hm.
  destruct pending as [st ms ci co].
  unfold flush_turn, flushed_entries; simpl. rewrite !flush_spec.
  split; [|by split].
  destruct (slice_last_suffix 10 ms) as [d1 Hd1].
  destruct (has_visible ci), (has_visible co).
  - rewrite (slice_last_snoc 9).
    destruct (slice_last_suffix 9 (slice_last 10 ms)) as [d2 Hd2].
    exists (d1 ++ d2), (slice_last 9 (slice_last 10 ms)).
    split; [|split; [|done]].
    + rewrite <- app_assoc, <- Hd2. exact Hd1.
    + by rewrite <- !app_assoc.
  - exists d1, (slice_last 10 ms).
    split; [exact Hd1|]. split; [by rewrite app_nil_r|done].
  - exists d1, (slice_last 10 ms). by split.
  - exists [], ms. split; [done|]. split; [by rewrite app_nil_r|done].
Qed.

(** *** The session status *)

(** The references stay inside the heap: every state reached from a
    valid one is valid. *)
Lemma refs_valid_step (ev : Event) (w : World) :
  refs_valid w = true -> refs_valid (step ev w) = true.
Proof.
  intros Hv. unfold step.
  destruct ev as [| [|] | [|] | | m | m | ctx b | | | | id | id | ctx t | t]; try exact Hv.
  - (* the microphone stream arrives *)
    unfold refs_valid, valid_ref in *.
    destruct w as [r [cur ctxs srcs ses str] [ns cs ms ss d]]; simpl in *.
    rewrite !length_app; simpl.
    apply andb_prop in Hv as [Hv _]. apply andb_prop in Hv as [Hses _]. rewrite Hses. simpl.
    repeat (apply andb_true_intro; split); apply Nat.ltb_lt; lia.
  - (* the session arrives *)
    unfold refs_valid, valid_ref in *.
    destruct w as [r [cur ctxs srcs ses str] [ns cs ms ss d]]; simpl in *.
    rewrite !length_app; simpl.
    apply andb_prop in Hv as [Hv Hctx]. apply andb_prop in Hv as [_ Hstr].
    rewrite Hstr, Hctx. simpl. rewrite ?andb_true_r. apply Nat.ltb_lt; lia.
  - (* a message *)
    destruct (before_audio m w) as [r' Hpre].
    unfold exec at 1; simpl. rewrite handleMessage_spec, Hpre.
    set (w1 := upd_react (fun _ => r') (if flag interrupted m then all_stopped w else w)).
    assert (Hv1 : refs_valid w1 = true) by (subst w1; by destruct (flag interrupted m)).
    fold (exec (handleMessage_audio m) w1).
    destruct (audio_cases m w1) as [->|(b & t & He)]; try exact Hv1.
    unfold exec; rewrite He; exact Hv1.
  - (* a message, suspended *)
    destruct (before_audio m w) as [r' Hpre].
    unfold handler. rewrite suspended_exec, Hpre.
    by destruct (flag interrupted m).
  - (* a handler resumes *)
    unfold exec; simpl. rewrite enqueue_spec.
    by destruct (audioContexts (browser w) !! ctx).
  - (* the close notification *)
    simpl. rewrite onclose_exec. unfold exec. by rewrite stopSession_spec.
  - (* the stop button *)
    simpl. unfold exec. by rewrite stopSession_spec.
  - (* the [ended] event *)
    unfold exec; simpl. unfold with_node.
    destruct (lookup_node id w) as [n|]; [|exact Hv].
    destruct (node_playback n); try exact Hv; by destruct (node_onended n).
  - (* the audio clock *)
    unfold refs_valid, valid_ref in *.
    destruct w as [r [cur ctxs srcs ses str] [ns cs ms ss d]]; simpl in *.
    by rewrite length_alter.
Qed.

(** Every playing node stays in the set of active sources. *)
Lemma tracked_same (w w' : World) :
  sourceNodes (browser w') = sourceNodes (browser w) ->
  audioSourcesRef (refs w') = audioSourcesRef (refs w) ->
  tracked w -> tracked w'.
Proof.
  unfold tracked, lookup_node. intros Hn Hs Ht id n. rewrite Hn, Hs. apply Ht.
Qed.

Lemma tracked_all_stopped (w : World) : tracked w -> tracked (all_stopped w).
Proof.
  intros Ht id n' Hn' Hp.
  assert (Hlt : (id < length (sourceNodes (browser w)))%nat).
  { apply lookup_lt_Some in Hn'. simpl in Hn'. by rewrite stop_nodes_length in Hn'. }
  destruct (lookup_lt_is_Some_2 _ _ Hlt) as [n Hn].
  destruct (all_stopped_silent w id n Ht Hn) as (n'' & Hl & Hq). congruence.
Qed.

Lemma In_set_add (x y : nat) (s : list nat) :
  In y (set_add x s) <-> y = x \/ In y s.
Proof.
  unfold set_add. destruct (existsb (Nat.eqb x) s) eqn:He.
  - split; [by right|]. intros [->|H]; [|exact H].
    apply existsb_exists in He as (z & Hz & Heq). apply Nat.eqb_eq in Heq. by subst.
  - rewrite in_app_iff. simpl. split.
    + intros [H|[H|[]]]; auto.
    + intros [->|H]; auto.
Qed.

Lemma In_set_delete (x y : nat) (s : list nat) :
  In y (set_delete x s) <-> y <> x /\ In y s.
Proof.
  unfold set_delete. rewrite filter_In, negb_true_iff, Nat.eqb_neq. intuition.
Qed.

Lemma tracked_enqueue (ctx : nat) (b : AudioBuffer) (w : World) :
  tracked w -> tracked (exec (handleMessage_enqueue ctx b) w).
Proof.
  intros Ht. unfold exec. rewrite enqueue_spec.
  destruct (audioContexts (browser w) !! ctx) as [c|]; simpl; [|exact Ht].
  intros id n Hn Hp; unfold lookup_node in *; simpl in *.
  apply In_set_add.
  destruct (Nat.lt_ge_cases id (length (sourceNodes (browser w)))) as [Hlt|Hge].
  - right. rewrite lookup_app_l in Hn by exact Hlt. by apply (Ht id n).
  - left. apply lookup_lt_Some in Hn. rewrite length_app in Hn. simpl in Hn. lia.
Qed.

Lemma tracked_audio (m : LiveServerMessage) (w : World) :
  tracked w -> tracked (exec (handleMessage_audio m) w).
Proof.
  intros Ht. unfold exec. rewrite audio_spec.
  destruct (audioDataOf m) as [[[|c s]|]|e]; try exact Ht.
  destruct (audioContextsRef (refs w)) as [ctxs|]; try exact Ht.
  destruct (decodeAudioData (c :: s)) as [b|e]; try exact Ht.
  by apply tracked_enqueue.
Qed.

Lemma tracked_step (ev : Event) (w : World) :
  tracked w -> tracked (step ev w).
Proof.
  intros Ht. unfold step.
  destruct ev as [| [|] | [|] | | m | m | ctx b | | | | id | id | ctx t | t];
    try (by apply (tracked_same w)).
  - (* a message *)
    destruct (before_audio m w) as [r' Hpre].
    unfold exec at 1; simpl. rewrite handleMessage_spec, Hpre.
    apply tracked_audio.
    destruct (flag interrupted m); [apply (tracked_same (all_stopped w))|apply (tracked_same w)];
      try reflexivity; [by apply tracked_all_stopped|exact Ht].
  - (* a message, suspended *)
    destruct (before_audio m w) as [r' Hpre].
    unfold handler. rewrite suspended_exec, Hpre.
    destruct (flag interrupted m); [apply (tracked_same (all_stopped w))|apply (tracked_same w)];
      try reflexivity; [by apply tracked_all_stopped|exact Ht].
  - (* a handler resumes *)
    by apply tracked_enqueue.
  - (* the close notification *)
    simpl. rewrite onclose_exec.
    destruct (stopSession_cases (upd_react (set_status IDLE) w))
      as [(Hn & Hs & _)|(Hn & Hs & _)].
    + by apply (tracked_same w).
    + apply (tracked_same (all_stopped w)); [by rewrite Hn|by rewrite Hs|].
      by apply tracked_all_stopped.
  - (* the stop button *)
    simpl.
    destruct (stopSession_cases w) as [(Hn & Hs & _)|(Hn & Hs & _)].
    + by apply (tracked_same w).
    + apply (tracked_same (all_stopped w)); [by rewrite Hn|by rewrite Hs|].
      by apply tracked_all_stopped.
  - (* a node plays to its end *)
    intros k n' Hn' Hp. unfold lookup_node, exec in *; simpl in *.
    destruct (Nat.eq_dec id k) as [->|Hne].
    + rewrite list_lookup_alter_eq in Hn'.
      destruct (sourceNodes (browser w) !! k) as [n|] eqn:Hn; [|discriminate].
      injection Hn' as <-. apply (Ht k n Hn).
      revert Hp. unfold playback_finished, playing. by destruct n as [? ? ? [] ?].
    + rewrite list_lookup_alter_ne in Hn' by done. by apply (Ht k n').
  - (* the [ended] event *)
    unfold exec; simpl. unfold with_node.
    destruct (lookup_node id w) as [n|] eqn:Hn; [|exact Ht].
    assert (Hdel : playing n = false ->
              tracked (upd_refs (fun r =>
                set_audioSources (set_delete id (audioSourcesRef r)) r) w)).
    { intros Hq k n' Hn' Hp. simpl. apply In_set_delete. split.
      - intros ->. unfold lookup_node in *. simpl in Hn'. congruence.
      - by apply (Ht k n'). }
    destruct (node_playback n) eqn:Hpb; try exact Ht;
      (destruct (node_onended n); [|exact Ht]); apply Hdel;
      unfold playing; by rewrite Hpb.
Qed.

Lemma tracked_run (evs : list Event) (w : World) :
  tracked w -> tracked (run evs w).
Proof.
  revert w; induction evs as [|ev evs IH]; intros w Ht; [exact Ht|].
  unfold run; simpl. apply IH. by apply tracked_step.
Qed.

Lemma tracked_initially : tracked initial_world.
Proof. intros [|id] n Hn; discriminate Hn. Qed.

Lemma refs_valid_run (evs : list Event) (w : World) :
  refs_valid w = true -> refs_valid (run evs w) = true.
Proof.
  revert w; induction evs as [|ev evs IH]; intros w Hv; [exact Hv|].
  unfold run; simpl. apply IH. by apply refs_valid_step.
Qed.

(** C8 (as amended). Each event fixes the status it leaves, whatever
    the status was: a start request sets [CONNECTING], the open
    notification [CONNECTED], the stop button and the close notification
    [IDLE], and a failure (of the service, of [getUserMedia], of the
    connection) [ERROR]; nothing else changes the status.  The two
    buttons exist only where the listed transitions start (start when
    idle or after an error, stop when connected), so a click always
    makes a listed transition. *)
Theorem status_follows_the_event (ev : Event) (w : World) :
  refs_valid w = true ->
  status (react (step ev w)) = status_after ev (status (react w)) /\
  (ev = StartClicked \/ ev = StopClicked ->
   offered ev (status (react w)) = true ->
   claimed_transition (status (react w)) (status (react (step ev w))) = true).
Proof.
  intros Hv.
  assert (Hst : status (react (step ev w)) = status_after ev (status (react w))).
  { unfold step.
    destruct ev as [| [|] | [|] | | m | m | ctx b | | | | id | id | ctx t | t];
      try reflexivity.
    - simpl. rewrite handleMessage_react.
      by destruct (flag turnComplete m).
    - unfold handler. rewrite <- (handleMessage_react_suspended m w).
      rewrite handleMessage_react. by destruct (flag turnComplete m).
    - unfold exec; simpl. rewrite enqueue_spec.
      by destruct (audioContexts (browser w) !! ctx).
    - simpl. rewrite onclose_exec. unfold exec. by rewrite stopSession_spec.
    - simpl. unfold exec. by rewrite stopSession_spec.
    - unfold exec; simpl. unfold with_node.
      destruct (lookup_node id w) as [n|]; [|reflexivity].
      destruct (node_playback n); try reflexivity; by destruct (node_onended n). }
  split; [exact Hst|].
  intros Hev Hoff. rewrite Hst.
  destruct Hev as [-> | ->]; simpl in *; by destruct (status (react w)).
Qed.

(** *** The transcript area over the whole event loop *)

(** What any event does to the React cells. *)
Lemma step_react (ev : Event) (w : World) :
  refs_valid w = true ->
  react (step ev w) =
  match ev with
  | MessageReceived m | MessageSuspended m =>
    if flag turnComplete m
    then flush_turn (dateNow (browser w)) (accumulate m (react w))
    else accumulate m (react w)
  | _ => set_status (status_after ev (status (react w))) (react w)
  end.
Proof.
  intros Hv. unfold step.
  destruct ev as [| [|] | [|] | | m | m | ctx b | | | | id | id | ctx t | t];
    try (by destruct w as [[st ms ci co] f b0]).
  - simpl. apply handleMessage_react.
  - unfold handler. rewrite <- (handleMessage_react_suspended m w).
    apply handleMessage_react.
  - unfold exec; simpl. rewrite enqueue_spec.
    destruct (audioContexts (browser w) !! ctx); by destruct w as [[st ms ci co] f b0].
  - simpl. rewrite onclose_exec. unfold exec. rewrite stopSession_spec by exact Hv.
    by destruct w as [[st ms ci co] f b0].
  - simpl. unfold exec. rewrite stopSession_spec by exact Hv.
    by destruct w as [[st ms ci co] f b0].
  - unfold exec; simpl. unfold with_node.
    destruct (lookup_node id w) as [n|]; [|by destruct w as [[st ms ci co] f b0]].
    destruct (node_playback n); try (by destruct w as [[st ms ci co] f b0]);
      destruct (node_onended n); by destruct w as [[st ms ci co] f b0].
Qed.

(** X1. Only a message from the service changes what the transcript
    area shows.  Every other event (the buttons, the resumptions of
    [startSession], open, error and close notifications, a resuming
    audio handler, the browser's clocks and [ended] events) leaves the
    log and the two pending fragments as they are, and with them the
    floating bar, the bubbles and the placeholder; in particular
    "End Call" does not clear a pending fragment. *)
Theorem transcript_changes_only_with_messages (ev : Event) (w : World) :
  refs_valid w = true -> is_message ev = false ->
  messages (react (step ev w)) = messages (react w) /\
  currentInput (react (step ev w)) = currentInput (react w) /\
  currentOutput (react (step ev w)) = currentOutput (react w) /\
  view_bar (render (react (step ev w))) = view_bar (render (react w)) /\
  view_bubbles (render (react (step ev w))) = view_bubbles (render (react w)) /\
  view_placeholder (render (react (step ev w))) = view_placeholder (render (react w)).
Proof.
  intros Hv Hm. rewrite (step_react ev w Hv).
  destruct ev; try discriminate Hm; by repeat split.
Qed.

Lemma flush_bounded (r : Role) (now : Z) (fragment : JSString) (log : list Message) :
  log_bounded log -> log_bounded (flush r now fragment log).
Proof.
  intros [Hlen Hvis]. rewrite flush_spec.
  destruct (has_visible fragment) eqn:Hf; [|by split].
  split.
  - rewrite length_app, slice_last_length. cbn [length]. lia.
  - apply Forall_app. split.
    + unfold slice_last. by apply Forall_drop.
    + by repeat constructor.
Qed.

Lemma step_log_bounded (ev : Event) (w : World) :
  refs_valid w = true -> log_bounded (messages (react w)) ->
  log_bounded (messages (react (step ev w))).
Proof.
  intros Hv Hlog. rewrite (step_react ev w Hv).
  assert (Hmsg : forall m,
            log_bounded (messages
              (if flag turnComplete m
               then flush_turn (dateNow (browser w)) (accumulate m (react w))
               else accumulate m (react w)))).
  { intros m. destruct (flag turnComplete m); [|exact Hlog].
    simpl. by do 2 apply flush_bounded. }
  destruct ev; try exact Hlog; apply Hmsg.
Qed.

Lemma run_log_bounded (evs : list Event) (w : World) :
  refs_valid w = true -> log_bounded (messages (react w)) ->
  log_bounded (messages (react (run evs w))).
Proof.
  revert w; induction evs as [|ev evs IH]; intros w Hv Hlog; [exact Hlog|].
  unfold run; simpl. apply IH; [by apply refs_valid_step|by apply step_log_bounded].
Qed.

(** X2. Whatever happens after the component is mounted, the footer
    never shows more than eleven bubbles and never a blank one (a text
    that is empty or only whitespace); and the placeholder is shown
    exactly when there is no bubble. *)
Theorem footer_shows_at_most_eleven_visible_entries (evs : list Event) :
  let v := render (react (run evs initial_world)) in
  (length (view_bubbles v) <= 11)%nat /\
  Forall (fun b => has_visible (bubble_text b) = true) (view_bubbles v) /\
  (view_placeholder v = true <-> view_bubbles v = []).
Proof.
  destruct (run_log_bounded evs initial_world) as [Hlen Hvis];
    [reflexivity|split; [simpl; lia|constructor]|].
  cbn zeta. unfold render; cbn [view_bubbles view_placeholder].
  split; [by rewrite length_map|]. split.
  - apply Forall_map. exact Hvis.
  - rewrite Nat.eqb_eq. destruct (messages (react (run evs initial_world))); by split.
Qed.

(** X3. The close notification of the service leaves exactly the state
    the "End Call" button leaves. *)
Theorem close_notification_acts_as_end_call (w : World) :
  refs_valid w = true -> step Closed w = step StopClicked w.
Proof.
  intros Hv. unfold step. simpl. rewrite onclose_exec. unfold exec.
  rewrite !stopSession_spec by exact Hv. by destruct w as [[st ms ci co] f b].
Qed.

(** X4. In every state the component can reach, "End Call" (and so the
    close notification) leaves no node playing or waiting to play,
    whether or not the node was still in the set of active sources. *)
Theorem nothing_plays_after_end_call (evs : list Event) :
  let w := step StopClicked (run evs initial_world) in
  audioSourcesRef (refs w) = [] /\
  Forall (fun n => playing n = false) (sourceNodes (browser w)).
Proof.
  cbn zeta. set (w0 := run evs initial_world).
  assert (Hv : refs_valid w0 = true) by (by apply refs_valid_run).
  assert (Ht : tracked w0) by (apply tracked_run, tracked_initially).
  unfold step; simpl. unfold exec. rewrite stopSession_spec by exact Hv.
  split; [reflexivity|].
  assert (Ht' : tracked (all_stopped (released w0))).
  { apply tracked_all_stopped. by apply (tracked_same w0). }
  apply List.Forall_forall. intros n Hin.
  apply list_elem_of_In, list_elem_of_lookup in Hin as [id Hid].
  destruct (playing n) eqn:Hp; [|reflexivity].
  destruct (Ht' id n Hid Hp).
Qed.

(** *** The audio branch of [handleMessage] *)

(** The state the first three parts leave, in closed form. *)
Lemma before_audio_state_spec (m : LiveServerMessage) (w : World) :
  before_audio_state m w =
  upd_react
    (fun _ => if flag turnComplete m
              then flush_turn (dateNow (browser w)) (accumulate m (react w))
              else accumulate m (react w))
    (if flag interrupted m then all_stopped w else w).
Proof.
  unfold before_audio_state, exec. rewrite transcriptions_spec; simpl.
  rewrite turnComplete_spec; simpl. rewrite interrupted_spec; simpl.
  destruct w as [r f b].
  by destruct (flag turnComplete m), (flag interrupted m).
Qed.

Lemma before_audio_state_contexts (m : LiveServerMessage) (w : World) :
  audioContextsRef (refs (before_audio_state m w)) = audioContextsRef (refs w) /\
  audioContexts (browser (before_audio_state m w)) = audioContexts (browser w).
Proof. rewrite before_audio_state_spec. by destruct (flag interrupted m). Qed.

Lemma handleMessage_from_before_audio (m : LiveServerMessage) (w : World) :
  handleMessage m w = handleMessage_audio m (before_audio_state m w).
Proof. apply handleMessage_spec. Qed.

(** X5. A message that carries none of the five fields the handler
    reads (no transcription, no end of turn, no interruption, no model
    turn; for instance one without [serverContent]) is ignored: the
    handler returns normally and the state is unchanged. *)
Theorem message_without_content_is_ignored (m : LiveServerMessage) (w : World) :
  field inputTranscription m = None -> field outputTranscription m = None ->
  flag turnComplete m = false -> flag interrupted m = false ->
  field modelTurn m = None ->
  handleMessage m w = (Normal tt, w).
Proof.
  intros Hi Ho Ht Hc Hm.
  rewrite handleMessage_from_before_audio, before_audio_state_spec, audio_spec.
  unfold audioDataOf, accumulate. rewrite Hm, Hi, Ho, Ht, Hc.
  by destruct w as [[st ms ci co] f b].
Qed.

(** X6. [handleMessage] can fail only in its audio branch: the model
    turn has no [parts], the decoder rejects the payload, or the output
    context is gone.  Then the handler rejects with that error, and the
    state is the one its first three parts left: the transcript work is
    kept, no node is created, and the status is what it was (the
    failure does not set [ERROR]). *)
Theorem handleMessage_fails_only_in_the_audio_branch
    (m : LiveServerMessage) (w : World) (e : Exn) :
  result (handleMessage m) w = Throw e ->
  exec (handleMessage m) w = before_audio_state m w /\
  status (react (exec (handleMessage m) w)) = status (react w) /\
  (audioDataOf m = Throw e \/
   exists c s ctxs,
     audioDataOf m = Normal (Some (c :: s)) /\
     audioContextsRef (refs w) = Some ctxs /\
     (decodeAudioData (c :: s) = Throw e \/
      (e = TypeError /\ audioContexts (browser w) !! output ctxs = None))).
Proof.
  intros Hr.
  assert (Hst : status (react (exec (handleMessage m) w)) = status (react w)).
  { rewrite handleMessage_react. by destruct (flag turnComplete m). }
  split; [|split; [exact Hst|]]; clear Hst; revert Hr;
    unfold result, exec; rewrite handleMessage_from_before_audio, audio_spec;
    destruct (before_audio_state_contexts m w) as [-> Hcs];
    (destruct (audioDataOf m) as [[[|c s]|]|e0]; simpl; try discriminate;
     [|by (intros [= ->]; auto)]);
    (destruct (audioContextsRef (refs w)) as [ctxs|]; simpl; try discriminate);
    (destruct (decodeAudioData (c :: s)) as [b|e0] eqn:Hd; simpl;
     [|by (intros [= ->]; eauto 10)]);
    rewrite enqueue_spec, Hcs;
    (destruct (audioContexts (browser w) !! output ctxs) eqn:Hctx; simpl; try discriminate);
    intros [= <-]; eauto 10.
Qed.

(** X7. One message adds at most one node to the heap, and adds it only
    when it carries a payload that is not the empty string, the
    component holds its audio contexts, and the decoder returned a
    buffer; the node is then scheduled on the output context at the
    cursor or the context's clock, whichever is later.  Otherwise the
    heap, the set of active sources and the cursor are as the first
    three parts left them. *)
Theorem message_enqueues_only_a_decoded_payload (m : LiveServerMessage) (w : World) :
  exec (handleMessage m) w = before_audio_state m w \/
  exists c s ctxs b ctx,
    audioDataOf m = Normal (Some (c :: s)) /\
    audioContextsRef (refs w) = Some ctxs /\
    decodeAudioData (c :: s) = Normal b /\
    audioContexts (browser w) !! output ctxs = Some ctx /\
    handleMessage m w = (Normal tt, enqueued (currentTime ctx) b (before_audio_state m w)).
Proof.
  unfold exec. rewrite handleMessage_from_before_audio, audio_spec.
  destruct (before_audio_state_contexts m w) as [-> Hcs].
  destruct (audioDataOf m) as [[[|c s]|]|e0]; auto.
  destruct (audioContextsRef (refs w)) as [ctxs|]; auto.
  destruct (decodeAudioData (c :: s)) as [b|e0] eqn:Hd; auto.
  rewrite enqueue_spec, Hcs.
  destruct (audioContexts (browser w) !! output ctxs) as [ctx|] eqn:Hctx; auto.
  right. exists c, s, ctxs, b, ctx. auto.
Qed.

Lemma message_at_rest (m : LiveServerMessage) (w : World) :
  at_rest w ->
  before_audio_state m w =
    upd_react
      (fun _ => if flag turnComplete m
                then flush_turn (dateNow (browser w)) (accumulate m (react w))
                else accumulate m (react w)) w /\
  exec (handleMessage m) w = before_audio_state m w.
Proof.
  intros (Hctx & Hset & Hcur).
  assert (Hpre : (if flag interrupted m then all_stopped w else w) = w).
  { destruct (flag interrupted m); [|reflexivity].
    destruct w as [r [cur ctxs srcs ses str] [ns cs ms ss d]]; simpl in *.
    subst. reflexivity. }
  split; [by rewrite before_audio_state_spec, Hpre|].
  unfold exec. rewrite handleMessage_from_before_audio, audio_spec.
  destruct (before_audio_state_contexts m w) as [-> _]. rewrite Hctx.
  by destruct (audioDataOf m) as [[[|c s]|]|e0].
Qed.

Lemma messages_at_rest (evs : list Event) (w : World) :
  Forall (fun ev => is_message ev = true) evs -> at_rest w ->
  at_rest (run evs w) /\
  refs (run evs w) = refs w /\ browser (run evs w) = browser w.
Proof.
  revert w; induction evs as [|ev evs IH]; intros w Hevs Hw; [done|].
  apply Forall_cons in Hevs as [Hev Hevs].
  assert (Hstep : refs (step ev w) = refs w /\ browser (step ev w) = browser w).
  { unfold step. destruct ev as [| | | | m | m | | | | | | | |]; try discriminate Hev.
    - cbn [handler]. destruct (message_at_rest m w Hw) as [Hpre ->]. by rewrite Hpre.
    - unfold handler. rewrite suspended_exec.
      destruct (message_at_rest m w Hw) as [Hpre _].
      unfold before_audio_state in Hpre. by rewrite Hpre. }
  destruct Hstep as [Hr Hb].
  assert (Hw' : at_rest (step ev w)) by (unfold at_rest in *; by rewrite Hr).
  destruct (IH (step ev w) Hevs Hw') as (Hrest & Hr' & Hb').
  unfold run in *; simpl. by rewrite Hr', Hb', Hr, Hb.
Qed.

(** X8. While the component is stopped (before the first session, and
    after "End Call" or a close notification), messages that still
    arrive are handled without creating a node: however many there are,
    the heap of the browser and every ref are exactly as before, so
    nothing is scheduled and the cursor stays at 0.  Only the
    transcript cells can change. *)
Theorem messages_while_stopped_schedule_nothing (evs : list Event) (w : World) :
  refs_valid w = true ->
  Forall (fun ev => is_message ev = true) evs ->
  let stopped := step StopClicked w in
  at_rest stopped /\
  refs (run evs stopped) = refs stopped /\
  browser (run evs stopped) = browser stopped.
Proof.
  intros Hv Hevs. cbn zeta.
  assert (Hrest : at_rest (step StopClicked w)).
  { unfold step; simpl. unfold exec. by rewrite stopSession_spec. }
  split; [exact Hrest|].
  by destruct (messages_at_rest evs _ Hevs Hrest) as (_ & Hr & Hb).
Qed.

(** *** Start times *)

Lemma nonneg_transfer (w w' : World) :
  (0 <= nextStartTimeRef (refs w'))%Q ->
  (forall id n', lookup_node id w' = Some n' ->
     exists n, lookup_node id w = Some n /\ node_when n' = node_when n) ->
  starts_nonneg w -> starts_nonneg w'.
Proof.
  intros Hc Hn [_ Hw]. split; [exact Hc|].
  intros id n' t Hn' Ht. destruct (Hn id n' Hn') as (n & Hl & Hwhen).
  apply (Hw id n t Hl). congruence.
Qed.

Lemma nonneg_same (w w' : World) :
  sourceNodes (browser w') = sourceNodes (browser w) ->
  nextStartTimeRef (refs w') = nextStartTimeRef (refs w) ->
  starts_nonneg w -> starts_nonneg w'.
Proof.
  intros Hn Hc Hw. apply (nonneg_transfer w); [rewrite Hc; apply Hw| |exact Hw].
  intros id n' Hl. exists n'. unfold lookup_node in *. by rewrite <- Hn.
Qed.

Lemma stop_nodes_origin (ids : list nat) (ns : list SourceNode) (i : nat) (n' : SourceNode) :
  stop_nodes ids ns !! i = Some n' ->
  exists n, ns !! i = Some n /\ node_when n' = node_when n.
Proof.
  intros Hl.
  assert (Hlt : (i < length ns)%nat).
  { apply lookup_lt_Some in Hl. by rewrite stop_nodes_length in Hl. }
  destruct (lookup_lt_is_Some_2 _ _ Hlt) as [n Hn].
  destruct (stop_nodes_lookup ids ns i n Hn) as (n'' & Hl' & Hw & _).
  exists n. split; [exact Hn|congruence].
Qed.

Lemma nonneg_stopped (w w' : World) :
  sourceNodes (browser w') = stop_nodes (audioSourcesRef (refs w)) (sourceNodes (browser w)) ->
  nextStartTimeRef (refs w') = 0%Q ->
  starts_nonneg w -> starts_nonneg w'.
Proof.
  intros Hn Hc. apply nonneg_transfer; [by rewrite Hc|].
  intros id n' Hl. unfold lookup_node in *. rewrite Hn in Hl.
  by apply (stop_nodes_origin _ _ _ _ Hl).
Qed.

Lemma nonneg_enqueued (t : Q) (b : AudioBuffer) (w : World) :
  starts_nonneg w -> starts_nonneg (enqueued t b w).
Proof.
  intros [Hc Hw].
  pose proof (Q.le_max_l (nextStartTimeRef (refs w)) t) as Hm.
  pose proof (duration_nonneg b) as Hd.
  split; [simpl; lra|].
  intros id n s Hn Hs. unfold lookup_node in *; simpl in *.
  destruct (Nat.lt_ge_cases id (length (sourceNodes (browser w)))) as [Hlt|Hge].
  - rewrite lookup_app_l in Hn by exact Hlt. by apply (Hw id n s).
  - assert (id = length (sourceNodes (browser w))) as ->.
    { apply lookup_lt_Some in Hn. rewrite length_app in Hn. simpl in Hn. lia. }
    rewrite lookup_snoc in Hn. injection Hn as <-. simpl in Hs. injection Hs as <-. lra.
Qed.

Lemma nonneg_before_audio (m : LiveServerMessage) (w : World) :
  starts_nonneg w -> starts_nonneg (before_audio_state m w).
Proof.
  intros Hw. rewrite before_audio_state_spec.
  destruct (flag interrupted m).
  - by apply (nonneg_stopped w).
  - by apply (nonneg_same w).
Qed.

Lemma nonneg_enqueue (ctx : nat) (b : AudioBuffer) (w : World) :
  starts_nonneg w -> starts_nonneg (exec (handleMessage_enqueue ctx b) w).
Proof.
  intros Hw. unfold exec. rewrite enqueue_spec.
  destruct (audioContexts (browser w) !! ctx); [by apply nonneg_enqueued|exact Hw].
Qed.

Lemma nonneg_step (ev : Event) (w : World) :
  starts_nonneg w -> starts_nonneg (step ev w).
Proof.
  intros Hw. unfold step.
  destruct ev as [| [|] | [|] | | m | m | ctx b | | | | id | id | ctx t | t];
    try (by apply (nonneg_same w)).
  - cbn [handler]. unfold exec. rewrite handleMessage_from_before_audio.
    apply (nonneg_before_audio m) in Hw.
    destruct (audio_cases m (before_audio_state m w)) as [He|(b & t & He)].
    + unfold exec in He. by rewrite He.
    + rewrite He. by apply nonneg_enqueued.
  - unfold handler. rewrite suspended_exec. by apply nonneg_before_audio.
  - by apply nonneg_enqueue.
  - cbn [handler]. rewrite onclose_exec.
    destruct (stopSession_cases (upd_react (set_status IDLE) w))
      as [(Hn & _ & Hc)|(Hn & _ & Hc)].
    + by apply (nonneg_same w).
    + by apply (nonneg_stopped w).
  - cbn [handler].
    destruct (stopSession_cases w) as [(Hn & _ & Hc)|(Hn & _ & Hc)].
    + by apply (nonneg_same w).
    + by apply (nonneg_stopped w).
  - apply (nonneg_transfer w); [apply Hw| |exact Hw].
    intros k n' Hn'. unfold lookup_node, exec in *; simpl in *.
    destruct (Nat.eq_dec id k) as [->|Hne].
    + rewrite list_lookup_alter_eq in Hn'.
      destruct (sourceNodes (browser w) !! k) as [n|] eqn:Hn; [|discriminate].
      injection Hn' as <-. exists n. split; [done|].
      unfold playback_finished. by destruct n as [? ? ? [] ?].
    + rewrite list_lookup_alter_ne in Hn' by done. by exists n'.
  - apply (nonneg_same w); try exact Hw; unfold exec; simpl; unfold with_node;
      destruct (lookup_node id w) as [n|]; try done;
      destruct (node_playback n); try done;
      by destruct (node_onended n).
Qed.

(** X9. In every state the component can reach, the cursor is at or
    after 0 and every node was started at a time at or after 0,
    whatever the clocks of the audio contexts read: [source.start] is
    never called with a negative time. *)
Theorem start_times_are_never_negative (evs : list Event) :
  (0 <= nextStartTimeRef (refs (run evs initial_world)))%Q /\
  (forall id n t,
     lookup_node id (run evs initial_world) = Some n ->
     node_when n = Some t -> (0 <= t)%Q).
Proof.
  assert (H : forall w, starts_nonneg w -> starts_nonneg (run evs w)).
  { induction evs as [|ev evs IH]; intros w Hw; [exact Hw|].
    unfold run; simpl. apply IH. by apply nonneg_step. }
  apply H. split; [simpl; lra|]. intros [|id] n t Hn; discriminate Hn.
Qed.

(** *** Fragments across messages *)

Lemma heard_exec (t : JSString) (w : World) :
  step (MessageReceived (heard t)) w =
  upd_react (set_currentInput (currentInput (react w) ++ t)) w.
Proof.
  unfold step. cbn [handler]. unfold exec.
  rewrite handleMessage_from_before_audio, before_audio_state_spec, audio_spec.
  by destruct w as [[st ms ci co] f b].
Qed.

Lemma heard_run (texts : list JSString) (w : World) :
  run (List.map (fun t => MessageReceived (heard t)) texts) w =
  upd_react (set_currentInput (currentInput (react w) ++ concat texts)) w.
Proof.
  revert w; induction texts as [|t texts IH]; intros w.
  - simpl. rewrite app_nil_r. by destruct w as [[st ms ci co] f b].
  - unfold run in *; simpl. rewrite heard_exec, IH.
    destruct w as [[st ms ci co] f b]; unfold upd_react, set_currentInput; simpl.
    by rewrite <- app_assoc.
Qed.

(** X10. Transcription fragments of the user that arrive in separate
    messages are joined in the order of arrival, without a separator,
    and the log does not change while they arrive; the message that
    ends the turn then puts the joined text into the log as one user
    entry (if it shows something) and empties the fragment. *)
Theorem fragments_join_until_the_turn_ends (texts : list JSString) (w : World) :
  let pending := run (List.map (fun t => MessageReceived (heard t)) texts) w in
  let flushed := step (MessageReceived turn_done) pending in
  let whole := currentInput (react w) ++ concat texts in
  currentInput (react pending) = whole /\
  messages (react pending) = messages (react w) /\
  currentInput (react flushed) = [] /\
  messages (react flushed) =
    flush agent (dateNow (browser w)) (currentOutput (react w))
      (if has_visible whole
       then slice_last 10 (messages (react w)) ++ [entry user whole (dateNow (browser w))]
       else messages (react w)).
Proof.
  cbn zeta. rewrite heard_run.
  split; [reflexivity|]. split; [reflexivity|].
  unfold step. cbn [handler]. rewrite handleMessage_react. simpl.
  split; [reflexivity|]. by rewrite (flush_spec user).
Qed.

(** *** What a session holds *)

Lemma resources_before_audio (m : LiveServerMessage) (w : World) :
  resources (before_audio_state m w) = resources w /\
  audioContexts (browser (before_audio_state m w)) = audioContexts (browser w).
Proof. rewrite before_audio_state_spec. by destruct (flag interrupted m). Qed.

Lemma resources_enqueue (ctx : nat) (b : AudioBuffer) (w : World) :
  resources (exec (handleMessage_enqueue ctx b) w) = resources w /\
  audioContexts (browser (exec (handleMessage_enqueue ctx b) w)) = audioContexts (browser w).
Proof.
  unfold exec. rewrite enqueue_spec. by destruct (audioContexts (browser w) !! ctx).
Qed.

(** Apart from the clocks, only [startSession] and [stopSession] touch
    what a session holds. *)
Lemma resources_step (ev : Event) (w : World) :
  touches_resources ev = false ->
  resources (step ev w) = resources w /\
  match ev with
  | AudioClock ctx t =>
    audioContexts (browser (step ev w)) = alter (set_currentTime t) ctx (audioContexts (browser w))
  | _ => audioContexts (browser (step ev w)) = audioContexts (browser w)
  end.
Proof.
  intros Hev. unfold step.
  destruct ev as [| [|] | [|] | | m | m | ctx b | | | | id | id | ctx t | t];
    try discriminate Hev; try (by split).
  - cbn [handler]. unfold exec. rewrite handleMessage_from_before_audio.
    destruct (resources_before_audio m w) as [<- <-].
    destruct (audio_cases m (before_audio_state m w)) as [He|(b & t & He)].
    + unfold exec in He. by rewrite He.
    + by rewrite He.
  - unfold handler. rewrite suspended_exec. apply resources_before_audio.
  - apply resources_enqueue.
  - unfold exec; simpl; unfold with_node;
      destruct (lookup_node id w) as [n|]; try done;
      destruct (node_playback n); try done;
      by destruct (node_onended n).
Qed.

Lemma stream_kept_step (ev : Event) (w : World) (s : nat) (x : MediaStream) :
  refs_valid w = true ->
  mediaStreams (browser w) !! s = Some x -> streamRef (refs w) <> Some s ->
  mediaStreams (browser (step ev w)) !! s = Some x /\ streamRef (refs (step ev w)) <> Some s.
Proof.
  intros Hv Hs Href.
  destruct (touches_resources ev) eqn:Hev.
  - assert (Hstop : mediaStreams (browser (session_stopped w)) !! s = Some x /\
                    streamRef (refs (session_stopped w)) <> Some s).
    { split; [|discriminate]. simpl.
      destruct (streamRef (refs w)) as [t|]; simpl; [|exact Hs].
      rewrite list_lookup_alter_ne; [exact Hs|congruence]. }
    unfold step.
    destruct ev as [| [|] | [|] | | m | m | ctx b | | | | id | id | ctx t | t];
      try discriminate Hev.
    + simpl. split; [by apply lookup_app_l_Some|].
      apply lookup_lt_Some in Hs. intros [= Heq]. lia.
    + by split.
    + cbn [handler]. rewrite onclose_exec. unfold exec.
      rewrite stopSession_spec by exact Hv. exact Hstop.
    + cbn [handler]. unfold exec. rewrite stopSession_spec by exact Hv. exact Hstop.
  - destruct (resources_step ev w Hev) as [Hres _]. unfold resources in Hres.
    injection Hres as _ -> _ _ ->. by split.
Qed.

Lemma session_kept_step (ev : Event) (w : World) (s : nat) (x : Session) :
  refs_valid w = true ->
  sessions (browser w) !! s = Some x -> sessionRef (refs w) <> Some s ->
  sessions (browser (step ev w)) !! s = Some x /\ sessionRef (refs (step ev w)) <> Some s.
Proof.
  intros Hv Hs Href.
  destruct (touches_resources ev) eqn:Hev.
  - assert (Hstop : sessions (browser (session_stopped w)) !! s = Some x /\
                    sessionRef (refs (session_stopped w)) <> Some s).
    { split; [|discriminate]. simpl.
      destruct (sessionRef (refs w)) as [t|]; simpl; [|exact Hs].
      rewrite list_lookup_alter_ne; [exact Hs|congruence]. }
    unfold step.
    destruct ev as [| [|] | [|] | | m | m | ctx b | | | | id | id | ctx t | t];
      try discriminate Hev.
    + by split.
    + simpl. split; [by apply lookup_app_l_Some|].
      apply lookup_lt_Some in Hs. intros [= Heq]. lia.
    + cbn [handler]. rewrite onclose_exec. unfold exec.
      rewrite stopSession_spec by exact Hv. exact Hstop.
    + cbn [handler]. unfold exec. rewrite stopSession_spec by exact Hv. exact Hstop.
  - destruct (resources_step ev w Hev) as [Hres _]. unfold resources in Hres.
    injection Hres as -> _ _ -> _. by split.
Qed.

Lemma context_kept_step (ev : Event) (w : World) (i : nat) (c : AudioContext) :
  refs_valid w = true ->
  audioContexts (browser w) !! i = Some c -> context_unreferenced i w ->
  (exists c', audioContexts (browser (step ev w)) !! i = Some c' /\
     ctx_closed c' = ctx_closed c) /\
  context_unreferenced i (step ev w).
Proof.
  intros Hv Hc Href.
  destruct (touches_resources ev) eqn:Hev.
  - assert (Hstop : (exists c', audioContexts (browser (session_stopped w)) !! i = Some c' /\
                       ctx_closed c' = ctx_closed c) /\
                    context_unreferenced i (session_stopped w)).
    { split; [|intros p; discriminate]. exists c. split; [|reflexivity]. simpl.
      destruct (audioContextsRef (refs w)) as [p|] eqn:Hp; simpl; [|exact Hc].
      destruct (Href p Hp) as [Hin Hout].
      by rewrite !list_lookup_alter_ne. }
    unfold step.
    destruct ev as [| [|] | [|] | | m | m | ctx b | | | | id | id | ctx t | t];
      try discriminate Hev.
    + simpl. split.
      * exists c. split; [|reflexivity]. by do 2 apply lookup_app_l_Some.
      * apply lookup_lt_Some in Hc. intros p [= <-]. simpl.
        rewrite length_app. simpl. lia.
    + split; [by exists c|exact Href].
    + cbn [handler]. rewrite onclose_exec. unfold exec.
      rewrite stopSession_spec by exact Hv. exact Hstop.
    + cbn [handler]. unfold exec. rewrite stopSession_spec by exact Hv. exact Hstop.
  - destruct (resources_step ev w Hev) as [Hres Hctx]. unfold resources in Hres.
    injection Hres as _ _ Hp _ _.
    split; [|unfold context_unreferenced; by rewrite Hp].
    assert (Hclock : forall k t,
              exists c', alter (set_currentTime t) k (audioContexts (browser w)) !! i = Some c' /\
                ctx_closed c' = ctx_closed c).
    { intros k t. destruct (Nat.eq_dec k i) as [->|Hne].
      - exists (set_currentTime t c). by rewrite list_lookup_alter_eq, Hc.
      - exists c. by rewrite list_lookup_alter_ne. }
    destruct ev; try (rewrite Hctx; by exists c). rewrite Hctx. apply Hclock.
Qed.

(** X11. An object the component no longer references is never
    released.  [startSession] overwrites the refs of the stream, the
    contexts and the session without releasing what they held, and
    [stopSession] releases only what the refs hold; so from then on no
    event stops the tracks of such a stream, closes such a session, or
    changes whether such a context is closed. *)
Theorem unreferenced_objects_are_never_released (evs : list Event) (w : World) :
  refs_valid w = true ->
  (forall s x, mediaStreams (browser w) !! s = Some x -> streamRef (refs w) <> Some s ->
     mediaStreams (browser (run evs w)) !! s = Some x) /\
  (forall s x, sessions (browser w) !! s = Some x -> sessionRef (refs w) <> Some s ->
     sessions (browser (run evs w)) !! s = Some x) /\
  (forall i c, audioContexts (browser w) !! i = Some c -> context_unreferenced i w ->
     exists c', audioContexts (browser (run evs w)) !! i = Some c' /\
       ctx_closed c' = ctx_closed c).
Proof.
  revert w; induction evs as [|ev evs IH]; intros w Hv.
  - repeat split; try done. intros i c Hc _. by exists c.
  - destruct (IH (step ev w) (refs_valid_step ev w Hv)) as (IHs & IHc & IHx).
    unfold run in *; simpl. repeat split.
    + intros s x Hs Href.
      destruct (stream_kept_step ev w s x Hv Hs Href) as [Hs' Href']. by apply IHs.
    + intros s x Hs Href.
      destruct (session_kept_step ev w s x Hv Hs Href) as [Hs' Href']. by apply IHc.
    + intros i c Hc Href.
      destruct (context_kept_step ev w i c Hv Hc Href) as [(c1 & Hc1 & Hcl) Href'].
      destruct (IHx i c1 Hc1 Href') as (c' & Hc' & Hcl').
      exists c'. split; [exact Hc'|congruence].
Qed.

(** *** Starting again *)

Lemma restart_state (t : Q) (w : World) :
  run [StartClicked; UserMediaSettled true; ConnectSettled true; Opened;
       AudioClock (S (length (audioContexts (browser w)))) t] w =
  {| react := set_status CONNECTED (react w);
     refs :=
       set_session (Some (length (sessions (browser w))))
         (set_audioContexts
            (Some {| input := length (audioContexts (browser w));
                     output := S (length (audioContexts (browser w))) |})
            (set_stream (Some (length (mediaStreams (browser w)))) (refs w)));
     browser :=
       {| sourceNodes := sourceNodes (browser w);
          audioContexts :=
            (audioContexts (browser w) ++
               [{| ctx_sampleRate := 16000; currentTime := 0; ctx_closed := false |}]) ++
               [{| ctx_sampleRate := 24000; currentTime := t; ctx_closed := false |}];
          mediaStreams := mediaStreams (browser w) ++ [{| tracks_stopped := false |}];
          sessions := sessions (browser w) ++ [{| session_closed := false |}];
          dateNow := dateNow (browser w) |} |}.
Proof.
  destruct w as [[st ms ci co] [cur ctxs srcs ses str] [ns cs mss ss d]].
  unfold run, step, exec; simpl.
  unfold upd_react, upd_refs, upd_browser, set_contexts; simpl.
  assert (Hlen : S (length cs) =
            length (cs ++ [{| ctx_sampleRate := 16000; currentTime := 0; ctx_closed := false |}])).
  { rewrite length_app; simpl. lia. }
  do 2 f_equal.
  - by rewrite Hlen.
  - rewrite Hlen. by rewrite alter_snoc.
Qed.

(** X12. [startSession] does not reset the playback cursor.  When a
    session is started in a state whose cursor is not 0 (an error
    notification sets [ERROR] and offers "Retry Connection" without
    running [stopAllAudio]), the first chunk of the new session is
    scheduled on the new output context at the old cursor if that is
    later than the new context's clock. *)
Theorem cursor_survives_a_restart (m : LiveServerMessage) (t : Q) (w : World)
    (c0 : N) (data : JSString) (b : AudioBuffer) :
  flag interrupted m = false ->
  audioDataOf m = Normal (Some (c0 :: data)) ->
  decodeAudioData (c0 :: data) = Normal b ->
  let w' := run [StartClicked; UserMediaSettled true; ConnectSettled true; Opened;
                 AudioClock (S (length (audioContexts (browser w)))) t;
                 MessageReceived m] w in
  lookup_node (length (sourceNodes (browser w))) w' =
    Some (scheduled_node b (Qmax (nextStartTimeRef (refs w)) t)) /\
  nextStartTimeRef (refs w') = (Qmax (nextStartTimeRef (refs w)) t + duration b)%Q.
Proof.
  intros Hi Ha Hd. cbn zeta.
  change [StartClicked; UserMediaSettled true; ConnectSettled true; Opened;
          AudioClock (S (length (audioContexts (browser w)))) t; MessageReceived m]
    with ([StartClicked; UserMediaSettled true; ConnectSettled true; Opened;
           AudioClock (S (length (audioContexts (browser w)))) t] ++ [MessageReceived m]).
  unfold run. rewrite fold_left_app. fold (run [StartClicked; UserMediaSettled true;
    ConnectSettled true; Opened; AudioClock (S (length (audioContexts (browser w)))) t] w).
  rewrite restart_state. cbn [fold_left]. unfold step. cbn [handler]. unfold exec.
  rewrite handleMessage_from_before_audio, before_audio_state_spec, Hi, audio_spec, Ha.
  cbn [upd_react refs audioContextsRef set_session set_audioContexts output].
  rewrite Hd, enqueue_spec.
  cbn [upd_react browser audioContexts].
  assert (Hlen : S (length (audioContexts (browser w))) =
            length (audioContexts (browser w) ++
              [{| ctx_sampleRate := 16000; currentTime := 0; ctx_closed := false |}])).
  { rewrite length_app; simpl. lia. }
  rewrite Hlen, lookup_snoc. unfold lookup_node. simpl.
  split; [|reflexivity]. apply lookup_snoc.
Qed.

(** *** The view *)


Lemma truthy_app_cons (prev : JSString) (c : N) (s : JSString) :
  truthy (prev ++ c :: s) = true.
Proof. by destruct prev. Qed.

(** X14. The floating bar follows the pending fragments.  After a
    message that ends the turn it is hidden.  After a message that adds
    text of the user without ending the turn it reads "Recognizing..."
    with all the user's pending text, whatever the agent's fragment
    holds; a message that adds only text of the agent while nothing of
    the user is pending makes it read "Aria is speaking..." with the
    agent's pending text. *)
Theorem floating_bar_follows_the_fragments (m : LiveServerMessage) (w : World) :
  let v := render (react (exec (handleMessage m) w)) in
  (flag turnComplete m = true -> view_bar v = None) /\
  (flag turnComplete m = false ->
   forall t c s,
     field inputTranscription m = Some t -> transcription_text t = Some (c :: s) ->
     view_bar v = Some {| bar_label := "Recognizing...";
                          bar_text := currentInput (react w) ++ c :: s |}) /\
  (flag turnComplete m = false ->
   field inputTranscription m = None -> currentInput (react w) = [] ->
   forall t c s,
     field outputTranscription m = Some t -> transcription_text t = Some (c :: s) ->
     view_bar v = Some {| bar_label := "Aria is speaking...";
                          bar_text := currentOutput (react w) ++ c :: s |}).
Proof.
  cbn zeta. rewrite handleMessage_react. repeat split.
  - by intros ->.
  - intros -> t c s Hi Ht. unfold render, accumulate, or_else; simpl.
    rewrite Hi, Ht; simpl. by rewrite !truthy_app_cons.
  - intros -> Hi Hci t c s Ho Ht. unfold render, accumulate, or_else; simpl.
    rewrite Hi, Ho, Ht, Hci; simpl. by rewrite !truthy_app_cons.
Qed.

(** *** The microphone path *)

Lemma capture_snoc {F B : Type} (pcmBlob : F -> B) (evs : list (CaptureEvent F))
    (ev : CaptureEvent F) :
  capture pcmBlob (evs ++ [ev]) = capture_step pcmBlob (capture pcmBlob evs) ev.
Proof. unfold capture. by rewrite fold_left_app. Qed.

Lemma captured_snoc {F : Type} (evs : list (CaptureEvent F)) (ev : CaptureEvent F) :
  captured (evs ++ [ev]) =
  captured evs ++ match ev with AudioProcess f => [f] | PromiseSettled _ => [] end.
Proof. unfold captured. rewrite flat_map_app. simpl. by rewrite app_nil_r. Qed.

(** X15. Every captured frame is handed to the session exactly once and
    in the order of capture: the frames captured while the session
    promise is pending wait, in order, and are sent when it is
    fulfilled, ahead of every later frame.  If the promise is rejected,
    nothing is ever sent. *)
Theorem captured_frames_are_sent_in_order {F B : Type} (pcmBlob : F -> B)
    (evs : list (CaptureEvent F)) :
  let u := capture pcmBlob evs in
  match sessionPromise u with
  | Pending reactions =>
    sendRealtimeInput u = [] /\ reactions = List.map pcmBlob (captured evs)
  | Fulfilled => sendRealtimeInput u = List.map pcmBlob (captured evs)
  | Rejected => sendRealtimeInput u = []
  end.
Proof.
  cbn zeta. induction evs as [|ev evs IH] using rev_ind; [by split|].
  rewrite capture_snoc, captured_snoc, map_app.
  destruct (capture pcmBlob evs) as [[reactions| |] sent]; simpl in *.
  - destruct IH as [-> ->].
    destruct ev as [f|[|]]; simpl; try done. by rewrite app_nil_r.
  - subst sent. destruct ev as [f|[|]]; simpl; by rewrite ?app_nil_r.
  - subst sent. by destruct ev as [f|[|]].
Qed.

(** *** The [ended] event and the set of active sources *)

Lemma grows_same (w w' : World) :
  length (sourceNodes (browser w')) = length (sourceNodes (browser w)) ->
  (forall x, In x (audioSourcesRef (refs w')) -> In x (audioSourcesRef (refs w))) ->
  heap_grows w w'.
Proof. intros Hn Hs. split; [lia|auto]. Qed.

Lemma grows_enqueued (t : Q) (b : AudioBuffer) (w : World) :
  heap_grows w (enqueued t b w).
Proof.
  split; simpl.
  - rewrite length_app. lia.
  - intros x Hx. apply In_set_add in Hx as [->|Hx]; auto.
Qed.

Lemma grows_trans (w w1 w' : World) :
  length (sourceNodes (browser w1)) = length (sourceNodes (browser w)) ->
  (forall x, In x (audioSourcesRef (refs w1)) -> In x (audioSourcesRef (refs w))) ->
  heap_grows w1 w' -> heap_grows w w'.
Proof.
  intros Hn Hs [Hlen Hset]. split; [lia|].
  intros x Hx. destruct (Hset x Hx) as [H|H]; [left; auto|right; congruence].
Qed.

Lemma grows_before_audio (m : LiveServerMessage) (w : World) :
  length (sourceNodes (browser (before_audio_state m w))) = length (sourceNodes (browser w)) /\
  (forall x, In x (audioSourcesRef (refs (before_audio_state m w))) ->
     In x (audioSourcesRef (refs w))).
Proof.
  rewrite before_audio_state_spec. destruct (flag interrupted m); simpl.
  - split; [apply stop_nodes_length|by intros x []].
  - by split.
Qed.

Lemma grows_enqueue (ctx : nat) (b : AudioBuffer) (w : World) :
  heap_grows w (exec (handleMessage_enqueue ctx b) w).
Proof.
  unfold exec. rewrite enqueue_spec.
  destruct (audioContexts (browser w) !! ctx); [apply grows_enqueued|by apply grows_same].
Qed.

Lemma grows_stop (w0 w : World) :
  sourceNodes (browser w0) = sourceNodes (browser w) ->
  audioSourcesRef (refs w0) = audioSourcesRef (refs w) ->
  heap_grows w (exec stopSession w0).
Proof.
  intros Hn Hs.
  destruct (stopSession_cases w0) as [(Hn' & Hs' & _)|(Hn' & Hs' & _)]; apply grows_same.
  - by rewrite Hn', Hn.
  - by rewrite Hs', Hs.
  - by rewrite Hn', stop_nodes_length, Hn.
  - rewrite Hs'. by intros x [].
Qed.

Lemma grows_step (ev : Event) (w : World) : heap_grows w (step ev w).
Proof.
  unfold step.
  destruct ev as [| [|] | [|] | | m | m | ctx b | | | | id | id | ctx t | t];
    try (by apply grows_same).
  - cbn [handler]. unfold exec. rewrite handleMessage_from_before_audio.
    destruct (grows_before_audio m w) as [Hn Hs].
    apply (grows_trans w (before_audio_state m w)); [exact Hn|exact Hs|].
    destruct (audio_cases m (before_audio_state m w)) as [He|(b & t & He)].
    + unfold exec in He. rewrite He. by apply grows_same.
    + rewrite He. apply grows_enqueued.
  - unfold handler. rewrite suspended_exec.
    destruct (grows_before_audio m w) as [Hn Hs]. by apply grows_same.
  - apply grows_enqueue.
  - cbn [handler]. rewrite onclose_exec. by apply grows_stop.
  - cbn [handler]. by apply grows_stop.
  - apply grows_same; [|done]. unfold exec; simpl. apply length_alter.
  - unfold exec; simpl. unfold with_node.
    destruct (lookup_node id w) as [n|]; [|by apply grows_same].
    destruct (node_playback n); try (by apply grows_same);
      (destruct (node_onended n); [|by apply grows_same]);
      (apply grows_same; [done|]); simpl; intros x Hx;
      by apply In_set_delete in Hx as [_ Hx].
Qed.

Lemma out_of_the_set_run (evs : list Event) (w : World) (id : nat) :
  (id < length (sourceNodes (browser w)))%nat ->
  ~ In id (audioSourcesRef (refs w)) ->
  ~ In id (audioSourcesRef (refs (run evs w))).
Proof.
  revert w; induction evs as [|ev evs IH]; intros w Hlt Hout; [exact Hout|].
  unfold run in *; simpl. destruct (grows_step ev w) as [Hlen Hset].
  apply IH; [lia|]. intros Hin. destruct (Hset id Hin) as [H|H]; [by apply Hout|lia].
Qed.

(** X16. A node leaves the set of active sources for good when its
    [ended] event is dispatched (it played to its end, or it was
    stopped): no later event puts it back, because the set only ever
    gains the node that was just created. *)
Theorem ended_source_leaves_the_set_for_good
    (evs : list Event) (w : World) (id : nat) (n : SourceNode) :
  lookup_node id w = Some n -> node_onended n = true ->
  node_playback n = Finished \/ node_playback n = Stopped ->
  ~ In id (audioSourcesRef (refs (run evs (step (EndedDispatched id) w)))).
Proof.
  intros Hn Ho Hp.
  assert (Hstep : step (EndedDispatched id) w =
            upd_refs (fun r => set_audioSources (set_delete id (audioSourcesRef r)) r) w).
  { unfold step, exec; simpl. unfold with_node. rewrite Hn.
    destruct Hp as [-> | ->]; by rewrite Ho. }
  rewrite Hstep. apply out_of_the_set_run.
  - simpl. by apply lookup_lt_Some in Hn.
  - simpl. intros Hin. apply In_set_delete in Hin as [Hne _]. by apply Hne.
Qed.

(** *** A handler that resumes after "End Call" *)

Lemma suspend_result (m : LiveServerMessage) (w : World) :
  result (handleMessage_suspend m) w =
  result (handleMessage_decode m) (before_audio_state m w).
Proof.
  unfold result at 1, handleMessage_suspend, before_audio_state, exec.
  unfold bind at 1. unfold bind at 1. rewrite transcriptions_spec.
  unfold bind at 1. cbn [fst snd]. rewrite turnComplete_spec. cbn [fst snd].
  by rewrite interrupted_spec.
Qed.

(** X17. [stopSession] does not cancel a handler that is suspended in
    its [await].  When a message with audio is being decoded while
    "End Call" is pressed, the handler resumes with the output context
    it had read before, now closed, and schedules its chunk there (a
    closed context still hands out nodes; only a context that does not
    exist is an error): the component is idle and holds no context, yet
    the set of active sources holds the new node and the cursor is at
    the end of that chunk. *)
Theorem suspended_handler_outlives_end_call
    (m : LiveServerMessage) (w : World) (ctxs : ContextPair)
    (c0 : N) (data : JSString) (b : AudioBuffer) :
  refs_valid w = true ->
  audioContextsRef (refs w) = Some ctxs ->
  audioDataOf m = Normal (Some (c0 :: data)) ->
  decodeAudioData (c0 :: data) = Normal b ->
  result (handleMessage_suspend m) w = Normal (Some (output ctxs, b)) /\
  let w' := run [MessageSuspended m; StopClicked; DecodeResumed (output ctxs) b] w in
  status (react w') = IDLE /\
  audioContextsRef (refs w') = None /\
  audioSourcesRef (refs w') = [length (sourceNodes (browser w))] /\
  exists c,
    audioContexts (browser w') !! output ctxs = Some c /\ ctx_closed c = true /\
    lookup_node (length (sourceNodes (browser w))) w' =
      Some (scheduled_node b (Qmax 0 (currentTime c))) /\
    nextStartTimeRef (refs w') = (Qmax 0 (currentTime c) + duration b)%Q.
Proof.
  intros Hv Hctx Ha Hd.
  destruct (before_audio_state_contexts m w) as [Hr Hcs].
  split.
  { rewrite suspend_result. unfold result, handleMessage_decode.
    unfold bind at 1, lift at 1. rewrite Ha.
    unfold bind at 1, gets at 1. rewrite Hr, Hctx.
    unfold bind, lift, ret. by rewrite Hd. }
  cbn zeta. unfold run; simpl.
  set (w1 := before_audio_state m w) in *.
  assert (H1 : step (MessageSuspended m) w = w1).
  { unfold step, handler. by rewrite suspended_exec. }
  assert (Hv1 : refs_valid w1 = true).
  { subst w1. rewrite before_audio_state_spec. by destruct (flag interrupted m). }
  assert (Hlen : length (sourceNodes (browser w1)) = length (sourceNodes (browser w))).
  { apply grows_before_audio. }
  assert (H2 : step StopClicked w1 = session_stopped w1).
  { unfold step. cbn [handler]. unfold exec. by rewrite stopSession_spec. }
  assert (Hout : exists c, audioContexts (browser (session_stopped w1)) !! output ctxs = Some c /\
                   ctx_closed c = true).
  { simpl. rewrite Hr, Hctx.
    unfold refs_valid in Hv1. rewrite Hr, Hctx in Hv1.
    apply andb_prop in Hv1 as [_ Hv1]. apply andb_prop in Hv1 as [_ Hv1].
    apply valid_lookup in Hv1 as [c Hc].
    destruct (Nat.eq_dec (input ctxs) (output ctxs)) as [Heq|Hne].
    - rewrite Heq, !list_lookup_alter_eq, Hc. simpl. by eexists.
    - rewrite list_lookup_alter_eq, list_lookup_alter_ne, Hc by exact Hne. simpl. by eexists. }
  destruct Hout as (c & Hc & Hclosed).
  assert (H3 : step (DecodeResumed (output ctxs) b) (session_stopped w1) =
            enqueued (currentTime c) b (session_stopped w1)).
  { unfold step, exec. cbn [handler]. by rewrite enqueue_spec, Hc. }
  rewrite H1, H2, H3.
  split; [reflexivity|]. split; [reflexivity|].
  split; [simpl; by rewrite stop_nodes_length, Hlen|].
  exists c. split; [exact Hc|]. split; [exact Hclosed|].
  split; [|reflexivity].
  unfold lookup_node. simpl. rewrite <- Hlen, <- (stop_nodes_length (audioSourcesRef (refs w1))).
  apply lookup_snoc.
Qed.

End App.

(** * The PCM codec *)

(** ** base64 *)

Lemma b64_table :
  forallb (fun v =>
    match b64_value (b64_char v) with
    | Some v' => (v =? v')%N && negb (b64_char v =? pad)%N
    | None => false
    end) (List.map N.of_nat (seq 0 64)) = true.
Proof. vm_compute. reflexivity. Qed.

Lemma b64_char_value (v : N) :
  (v < 64)%N -> b64_value (b64_char v) = Some v /\ (b64_char v =? pad)%N = false.
Proof.
  intros Hv.
  pose proof b64_table as Ht. rewrite forallb_forall in Ht.
  specialize (Ht v).
  assert (Hin : In v (List.map N.of_nat (seq 0 64))).
  { apply in_map_iff. exists (N.to_nat v). split; [lia|]. apply in_seq. lia. }
  specialize (Ht Hin).
  destruct (b64_value (b64_char v)) as [v'|]; [|discriminate].
  apply andb_prop in Ht as [H1 H2]. apply N.eqb_eq in H1. subst v'.
  apply negb_true_iff in H2. auto.
Qed.

Ltac div_lia := zify; Z.to_euclidean_division_equations; lia.

Lemma byte_bound (a : byte) : (Byte.to_N a < 256)%N.
Proof. pose proof (Byte.to_N_bounded a). lia. Qed.

Lemma list_ind3 {A : Type} (P : list A -> Prop) :
  P [] -> (forall a, P [a]) -> (forall a b, P [a; b]) ->
  (forall a b c l, P l -> P (a :: b :: c :: l)) ->
  forall l, P l.
Proof.
  intros H0 H1 H2 H3 l.
  assert (H : P l /\ (forall a, P (a :: l)) /\ (forall a b, P (a :: b :: l))).
  { induction l as [|x l (IH0 & IH1 & IH2)]; [by auto|].
    split; [apply IH1|]. split; [intros a; apply IH2|]. intros a b. by apply H3. }
  apply H.
Qed.

Lemma decode_group1 (a : byte) :
  decode (encode [a]) = Some [a].
Proof.
  pose proof (byte_bound a) as Ha. simpl.
  set (n := Byte.to_N a) in *.
  destruct (b64_char_value (n / 4)) as [-> _]; [div_lia|].
  destruct (b64_char_value (n mod 4 * 16)) as [-> _]; [div_lia|].
  simpl. unfold byte1.
  replace (n / 4 * 4 + n mod 4 * 16 / 16)%N with n by div_lia.
  subst n. by rewrite Byte.of_to_N.
Qed.

Lemma decode_group2 (a b : byte) :
  decode (encode [a; b]) = Some [a; b].
Proof.
  pose proof (byte_bound a) as Ha. pose proof (byte_bound b) as Hb. simpl.
  set (n := Byte.to_N a) in *. set (m := Byte.to_N b) in *.
  destruct (b64_char_value (n / 4)) as [-> _]; [div_lia|].
  destruct (b64_char_value (n mod 4 * 16 + m / 16)) as [-> _]; [div_lia|].
  destruct (b64_char_value (m mod 16 * 4)) as [Hv ->]; [div_lia|].
  simpl. unfold byte1.
  replace (n / 4 * 4 + (n mod 4 * 16 + m / 16) / 16)%N with n by div_lia.
  subst n. rewrite Byte.of_to_N. simpl. rewrite Hv. simpl. unfold byte2.
  replace ((Byte.to_N a mod 4 * 16 + m / 16) mod 16 * 16 + m mod 16 * 4 / 4)%N
    with m by div_lia.
  subst m. by rewrite Byte.of_to_N.
Qed.

Lemma decode_group3 (a b c : byte) (rest : list byte) :
  decode (encode (a :: b :: c :: rest)) =
  tail ← decode (encode rest); Some (a :: b :: c :: tail).
Proof.
  pose proof (byte_bound a) as Ha. pose proof (byte_bound b) as Hb.
  pose proof (byte_bound c) as Hc.
  cbn [encode app decode].
  set (n := Byte.to_N a) in *. set (m := Byte.to_N b) in *. set (k := Byte.to_N c) in *.
  destruct (b64_char_value (n / 4)) as [-> _]; [div_lia|].
  destruct (b64_char_value (n mod 4 * 16 + m / 16)) as [-> _]; [div_lia|].
  destruct (b64_char_value (m mod 16 * 4 + k / 64)) as [Hv3 ->]; [div_lia|].
  destruct (b64_char_value (k mod 64)) as [Hv4 ->]; [div_lia|].
  cbn [mbind option_bind]. unfold byte1.
  replace (n / 4 * 4 + (n mod 4 * 16 + m / 16) / 16)%N with n by div_lia.
  subst n. rewrite Byte.of_to_N. cbn [mbind option_bind]. rewrite Hv3. cbn [mbind option_bind].
  unfold byte2.
  replace ((Byte.to_N a mod 4 * 16 + m / 16) mod 16 * 16 + (m mod 16 * 4 + k / 64) / 4)%N
    with m by div_lia.
  subst m. rewrite Byte.of_to_N. cbn [mbind option_bind]. rewrite Hv4. cbn [mbind option_bind].
  unfold byte3.
  replace ((Byte.to_N b mod 16 * 4 + k / 64) mod 4 * 64 + k mod 64)%N with k by div_lia.
  subst k. rewrite Byte.of_to_N. reflexivity.
Qed.

Lemma decode_encode (bytes : list byte) : decode (encode bytes) = Some bytes.
Proof.
  induction bytes as [|a|a b|a b c rest IH] using list_ind3.
  - reflexivity.
  - apply decode_group1.
  - apply decode_group2.
  - rewrite decode_group3, IH. reflexivity.
Qed.

(** ** 16-bit samples *)

Lemma byte_of_Z_to_N (z : Z) : Byte.to_N (byte_of_Z z) = Z.to_N (z mod 256).
Proof.
  unfold byte_of_Z.
  destruct (Byte.of_N (Z.to_N (z mod 256))) as [b|] eqn:Hb.
  - by apply Byte.to_of_N.
  - apply Byte.of_N_None_iff in Hb. div_lia.
Qed.

Lemma int16_bytes_spec (z : Z) :
  (-32768 <= z <= 32767)%Z ->
  exists lo hi, int16_bytes z = [lo; hi] /\ int16_of_bytes lo hi = z.
Proof.
  intros Hz. unfold int16_bytes. eexists _, _. split; [reflexivity|].
  unfold int16_of_bytes. rewrite !byte_of_Z_to_N.
  rewrite !Z2N.id by div_lia.
  destruct (Z.ltb_spec (z mod 65536 mod 256 + 256 * (z mod 65536 / 256 mod 256)) 32768);
    div_lia.
Qed.

Lemma saturate16_range (z : Z) : (-32768 <= saturate16 z <= 32767)%Z.
Proof. unfold saturate16. lia. Qed.

Lemma samples_of_bytes (zs : list Z) :
  Forall (fun z => (-32768 <= z <= 32767)%Z) zs ->
  bytesToFloatSamples (flat_map int16_bytes zs) = List.map (fun z => z # 32768) zs.
Proof.
  induction 1 as [|z zs Hz _ IH]; [reflexivity|].
  destruct (int16_bytes_spec z Hz) as (lo & hi & Hb & Hv).
  cbn [flat_map List.map]. rewrite Hb. cbn [app bytesToFloatSamples].
  by rewrite Hv, IH.
Qed.

(** ** Quantization *)

Lemma clamp_valid (x : Q) : (-1 <= x <= 1)%Q -> (clamp x == x)%Q.
Proof.
  intros [Hlo Hhi]. unfold clamp.
  rewrite (Q.min_r 1 x Hhi). by apply Q.max_r.
Qed.

Lemma round_with_close (r : Rounding) (y : Q) :
  (y - 1 < inject_Z (round_with r y) /\ inject_Z (round_with r y) < y + 1)%Q.
Proof.
  pose proof (Qfloor_le y) as Hf1. pose proof (Qlt_floor y) as Hf2.
  pose proof (Qle_ceiling y) as Hc1. pose proof (Qceiling_lt y) as Hc2.
  pose proof (Qfloor_le (y + (1 # 2))) as Hn1. pose proof (Qlt_floor (y + (1 # 2))) as Hn2.
  rewrite inject_Z_plus in Hf2, Hn2.
  replace (Qceiling y - 1)%Z with (Qceiling y + -1)%Z in Hc2 by lia.
  rewrite inject_Z_plus in Hc2.
  change (inject_Z 1) with 1%Q in *. change (inject_Z (-1)) with (-1)%Q in *.
  destruct r; cbn [round_with]; [destruct (Qle_bool 0 y)| |]; split; lra.
Qed.

Lemma saturate16_cases (z : Z) :
  saturate16 z = z \/
  (saturate16 z = 32767%Z /\ (inject_Z 32767 < inject_Z z)%Q) \/
  (saturate16 z = (-32768)%Z /\ (inject_Z z < inject_Z (-32768))%Q).
Proof.
  unfold saturate16.
  destruct (Z_lt_le_dec 32767 z) as [H|H].
  - right; left. split; [lia|]. by rewrite <- Zlt_Qlt.
  - destruct (Z_lt_le_dec z (-32768)) as [H'|H'].
    + right; right. split; [lia|]. by rewrite <- Zlt_Qlt.
    + left. lia.
Qed.

Lemma quantize_close (qz : Quantizer) (x : Q) :
  (-1 <= x <= 1)%Q ->
  (Qabs (x - (quantize qz x # 32768)) < 2 # 32768)%Q.
Proof.
  intros Hx. pose proof (clamp_valid x Hx) as Hy.
  unfold quantize. set (y := clamp x) in *.
  set (k := if Qle_bool 0 y then positive_scale qz else negative_scale qz).
  set (scaled := (y * inject_Z (scale_factor k))%Q).
  destruct (round_with_close (rounding qz) scaled) as [Hr1 Hr2].
  set (r := round_with (rounding qz) scaled) in *.
  assert (Hk : (scaled == y * 32767)%Q \/ (scaled == y * 32768)%Q).
  { subst scaled. destruct k; [left|right]; reflexivity. }
  pose proof (saturate16_cases r) as Hs.
  set (q := saturate16 r) in *. clearbody q.
  assert (Hq : ((q # 32768) * 32768 == inject_Z q)%Q).
  { unfold Qeq, inject_Z; simpl. lia. }
  set (d := (q # 32768)%Q) in *. clearbody d.
  apply Qabs_Qlt_condition.
  change (inject_Z 32767) with 32767%Q in *. change (inject_Z (-32768)) with (-32768)%Q in *.
  destruct Hs as [Hs|[[Hs Hgt]|[Hs Hlt]]]; subst q;
    change (inject_Z 32767) with 32767%Q in *; change (inject_Z (-32768)) with (-32768)%Q in *;
    destruct Hk as [Hk|Hk]; split; lra.
Qed.

Lemma flat_map_quantized (qz : Quantizer) (frame : list Q) :
  flat_map (fun x => int16_bytes (quantize qz x)) frame =
  flat_map int16_bytes (List.map (quantize qz) frame).
Proof. induction frame as [|x frame IH]; [reflexivity|]. simpl. by rewrite IH. Qed.

(** C9. For a frame whose samples lie in [-1, 1], decoding what
    [createPcmBlob] produced succeeds and gives back as many samples,
    each within two steps of the 16-bit scale ([2/32768]) of the
    original, whichever full scale and rounding the quantizer uses. *)
Theorem decode_encode_within_quantization (qz : Quantizer) (frame : list Q) :
  Forall (fun x => (-1 <= x <= 1)%Q) frame ->
  exists bytes,
    decode (wire_data (createPcmBlob qz frame)) = Some bytes /\
    Forall2 (fun x y => (Qabs (x - y) < 2 # 32768)%Q) frame (bytesToFloatSamples bytes).
Proof.
  intros Hvalid. unfold createPcmBlob; cbn [wire_data].
  rewrite decode_encode. eexists; split; [reflexivity|].
  rewrite flat_map_quantized, samples_of_bytes.
  - induction Hvalid as [|x frame Hx _ IH]; simpl; constructor; [|exact IH].
    by apply quantize_close.
  - apply List.Forall_forall. intros z Hz. apply in_map_iff in Hz as (x & <- & _).
    apply saturate16_range.
Qed.

(** * The claims at concrete inputs *)

(** C1. Twelve turns appended to the empty log: eleven of them are
    kept.  Only the first is gone; the second is still there, at the
    head of the log. *)
Lemma transcript_log_keeps_eleven_of_twelve :
  let w := exec (forEach twelve_turns (addMessage user)) initial_world in
  length (messages (react w)) = 11%nat /\
  List.map text (messages (react w)) = drop 1 twelve_turns /\
  List.map text (take 1 (messages (react w))) = [js "two"].
Proof. vm_compute. auto. Qed.

(** C6 as first stated does not hold: a fragment of one space is not
    empty, yet the flush adds no entry for it. *)
Lemma whitespace_fragment_adds_no_entry :
  let w := upd_react (set_currentInput (js " ")) initial_world in
  let m := transcript_message None None true in
  flag turnComplete m = true /\
  claimed_flushed_entries 0 (react w) = [{| role := user; text := js " "; timestamp := 0 |}] /\
  messages (react (exec (handleMessage fixed_rate_decoder true m) w)) = [].
Proof. vm_compute. auto. Qed.

(** C8 as first stated does not hold: the service reports an error and
    then closes the connection, and the status goes from [ERROR] to
    [IDLE], which is not among the listed transitions. *)
Lemma close_after_error_returns_to_idle :
  let w := run fixed_rate_decoder true
             [StartClicked; UserMediaSettled true; Errored] initial_world in
  status (react w) = ERROR /\
  status (react (step fixed_rate_decoder true Closed w)) = IDLE /\
  claimed_transition ERROR IDLE = false.
Proof. vm_compute. auto. Qed.

(** C2 at a concrete run: once connected, with the output clock at
    1.5 s, chunks of 0.5 s, 0.3 s and 0.2 s arrive while the clock moves
    on a little, the first chunk plays to its end, and the handlers of
    the last two are suspended together and resumed one after the other;
    the chunks start at 1.5 s, 2 s and 2.3 s. *)
Lemma three_chunks_start_back_to_back :
  let w := run fixed_rate_decoder true
             [StartClicked; UserMediaSettled true; Opened; ConnectSettled true;
              AudioClock 1 (3 # 2)] initial_world in
  let half := {| buffer_length := 12000; buffer_sampleRate := 24000 |} in
  let third := {| buffer_length := 7200; buffer_sampleRate := 24000 |} in
  let fifth := {| buffer_length := 4800; buffer_sampleRate := 24000 |} in
  let evs := [MessageReceived (audio_message "0123456789" false);
              AudioClock 1 (8 # 5);
              MessageSuspended (audio_message "012345" false);
              PlaybackFinished 0;
              EndedDispatched 0;
              MessageSuspended (audio_message "0123" false);
              DecodeResumed 1 third;
              DecodeResumed 1 fifth] in
  let nodes := sourceNodes (browser (run fixed_rate_decoder true evs w)) in
  let s0 := (3 # 2)%Q in
  let s1 := (s0 + duration half)%Q in
  let s2 := (s1 + duration third)%Q in
  forallb (fun ev => negb (stops ev)) evs = true /\
  nodes !! 0%nat = Some (set_playback Finished (scheduled_node half s0)) /\
  nodes !! 1%nat = Some (scheduled_node third s1) /\
  ((s0 <= s1)%Q /\ (s0 + duration half <= s1)%Q) /\
  ((s1 <= s2)%Q /\ (s1 + duration third <= s2)%Q) /\
  (s1 == 2)%Q /\ (s2 == 23 # 10)%Q.
Proof.
  intros w half third fifth evs nodes s0 s1 s2.
  pose proof (enqueue_starts_ordered_without_overlap fixed_rate_decoder true) as [_ Hrun].
  split; [reflexivity|]. split; [reflexivity|]. split; [reflexivity|].
  split; [|split; [|split; reflexivity]].
  - apply (Hrun evs w eq_refl 0%nat 1%nat
             (set_playback Finished (scheduled_node half s0))
             (scheduled_node third s1) s0 s1 half);
      try reflexivity; exact (le_n 1).
  - apply (Hrun evs w eq_refl 1%nat 2%nat (scheduled_node third s1)
             (scheduled_node fifth s2)
             s1 s2 third);
      try reflexivity; [exact (le_S 0 0 (le_n 0))|exact (le_n 2)].
Defined.

(** C4 while connecting: the microphone was granted and the contexts
    exist, the session does not yet; stopping releases the stream and
    both contexts, does not throw, and can be repeated. *)
Lemma stopping_while_connecting_releases :
  let w := run fixed_rate_decoder true
             [StartClicked; UserMediaSettled true] initial_world in
  let w' := exec (stopSession true) w in
  refs_valid w = true /\
  status (react w) = CONNECTING /\
  streamRef (refs w) = Some 0%nat /\
  audioContextsRef (refs w) = Some {| input := 0; output := 1 |} /\
  result (stopSession true) w = Normal tt /\
  mediaStreams (browser w') !! 0%nat = Some {| tracks_stopped := true |} /\
  (exists ci co,
     audioContexts (browser w') !! 0%nat = Some ci /\ ctx_closed ci = true /\
     audioContexts (browser w') !! 1%nat = Some co /\ ctx_closed co = true) /\
  result (stopSession true) w' = Normal tt /\
  exec (stopSession true) w' = w'.
Proof.
  intros w w'.
  pose proof (stopSession_releases_and_is_idempotent true w eq_refl)
    as (Hret & _ & _ & Hstream & Hctx & _ & Hret' & Hsame).
  do 4 (split; [reflexivity|]).
  split; [exact Hret|]. split; [exact (Hstream 0%nat eq_refl)|].
  split; [exact (Hctx {| input := 0; output := 1 |} eq_refl)|].
  split; [exact Hret'|exact Hsame].
Defined.

(** C7 at a concrete state: two chunks are scheduled when an
    interrupted message without audio arrives. *)
Lemma interruption_cuts_two_scheduled_chunks :
  let w := run fixed_rate_decoder true
             [StartClicked; UserMediaSettled true; Opened; ConnectSettled true;
              MessageReceived (audio_message "0123456789" false);
              MessageReceived (audio_message "012345" false)] initial_world in
  let m := {| serverContent := Some
                {| inputTranscription := None; outputTranscription := None;
                   turnComplete := false; interrupted := true; modelTurn := None |} |} in
  let w' := exec (handleMessage fixed_rate_decoder true m) w in
  flag interrupted m = true /\
  audioSourcesRef (refs w) = [0; 1]%nat /\
  audioSourcesRef (refs w') = [] /\
  nextStartTimeRef (refs w') = 0%Q /\
  (exists n', lookup_node 0 w' = Some n' /\ playing n' = false /\
     ~ In 0%nat (audioSourcesRef (refs w'))) /\
  (exists n', lookup_node 1 w' = Some n' /\ playing n' = false /\
     ~ In 1%nat (audioSourcesRef (refs w'))) /\
  (forall id n, lookup_node id w = Some n ->
     exists n', lookup_node id w' = Some n' /\ playing n' = false).
Proof.
  intros w m w'.
  pose proof (interruption_stops_all_sources fixed_rate_decoder true m w eq_refl)
    as (_ & Hcut & Hidle & Hsilent).
  split; [reflexivity|]. split; [reflexivity|].
  destruct (Hidle eq_refl) as [Hset Hcur].
  split; [exact Hset|]. split; [exact Hcur|].
  split; [|split].
  - refine (Hcut 0%nat (scheduled_node _ _) _ eq_refl). left; reflexivity.
  - refine (Hcut 1%nat (scheduled_node _ _) _ eq_refl). right; left; reflexivity.
  - intros id n. apply Hsilent.
    apply tracked_run, tracked_initially.
Defined.

(** C5 at a concrete state: with one chunk scheduled (cursor at 0.5 s),
    a second chunk moves the cursor on, and an interrupted message
    takes it back to 0 while it cuts the chunk. *)
Lemma cursor_moves_on_until_interrupted :
  let w := run fixed_rate_decoder true
             [StartClicked; UserMediaSettled true; Opened; ConnectSettled true;
              MessageReceived (audio_message "0123456789" false)] initial_world in
  let more := MessageReceived (audio_message "012345" false) in
  let cut := MessageReceived
               {| serverContent := Some
                    {| inputTranscription := None; outputTranscription := None;
                       turnComplete := false; interrupted := true; modelTurn := None |} |} in
  (nextStartTimeRef (refs w) <= nextStartTimeRef (refs (step fixed_rate_decoder true more w)))%Q /\
  (nextStartTimeRef (refs (step fixed_rate_decoder true cut w)) < nextStartTimeRef (refs w))%Q /\
  stops cut = true /\
  exists n', lookup_node 0 (step fixed_rate_decoder true cut w) = Some n' /\
    playing n' = false /\
    ~ In 0%nat (audioSourcesRef (refs (step fixed_rate_decoder true cut w))).
Proof.
  intros w more cut.
  split; [exact (proj1 (cursor_lowered_only_by_full_stop fixed_rate_decoder true more w) eq_refl)|].
  split; [reflexivity|].
  destruct (proj2 (cursor_lowered_only_by_full_stop fixed_rate_decoder true cut w) eq_refl)
    as [Hstops Hcut].
  split; [exact Hstops|].
  refine (Hcut 0%nat (scheduled_node _ _) _ eq_refl). left; reflexivity.
Defined.

(** C6 at the specification's example: pending fragments "hello "
    (user) and "" (agent); the flush adds one user entry and no agent
    entry, and empties both fragments. *)
Lemma hello_is_flushed_as_one_user_entry :
  let w := upd_react (set_currentInput (js "hello ")) initial_world in
  let m := transcript_message None None true in
  let w' := exec (handleMessage fixed_rate_decoder true m) w in
  flag turnComplete m = true /\
  flushed_entries 0 (accumulate m (react w)) = [entry user (js "hello ") 0] /\
  messages (react w') = [entry user (js "hello ") 0] /\
  currentInput (react w') = [] /\
  currentOutput (react w') = [].
Proof.
  intros w m w'.
  pose proof (turn_complete_flushes_visible_fragments fixed_rate_decoder true m w eq_refl)
    as (_ & Hin & Hout).
  split; [reflexivity|]. split; [reflexivity|]. split; [reflexivity|].
  split; [exact Hin|exact Hout].
Defined.

(** C8 at the state the counterexample starts from: after an error,
    the close notification sets [IDLE]; the retry button, which the
    component offers there, sets [CONNECTING]. *)
Lemma status_after_error :
  let w := run fixed_rate_decoder true
             [StartClicked; UserMediaSettled true; Errored] initial_world in
  refs_valid w = true /\
  status (react w) = ERROR /\
  status (react (step fixed_rate_decoder true Closed w)) = IDLE /\
  status (react (step fixed_rate_decoder true StartClicked w)) = CONNECTING /\
  claimed_transition ERROR (status (react (step fixed_rate_decoder true StartClicked w))) = true.
Proof.
  intros w.
  split; [reflexivity|]. split; [reflexivity|].
  split; [exact (proj1 (status_follows_the_event fixed_rate_decoder true Closed w eq_refl))|].
  destruct (status_follows_the_event fixed_rate_decoder true StartClicked w eq_refl)
    as [Hst Hclick].
  split; [exact Hst|]. exact (Hclick (or_introl eq_refl) eq_refl).
Defined.

(** C9 at a concrete frame, quantized the way an [Int16Array] store
    does. *)
Lemma five_samples_survive_the_codec :
  let qz := {| rounding := TowardZero; positive_scale := Scale32767;
               negative_scale := Scale32768 |} in
  let frame := [0; 1; -1; 1 # 2; -1 # 3]%Q in
  Forall (fun x => (-1 <= x <= 1)%Q) frame /\
  exists bytes,
    decode (wire_data (createPcmBlob qz frame)) = Some bytes /\
    Forall2 (fun x y => (Qabs (x - y) < 2 # 32768)%Q) frame (bytesToFloatSamples bytes).
Proof.
  intros qz frame.
  assert (Hvalid : Forall (fun x => (-1 <= x <= 1)%Q) frame).
  { repeat constructor; discriminate. }
  split; [exact Hvalid|].
  exact (decode_encode_within_quantization qz frame Hvalid).
Defined.

(** C10 at concrete messages: an interrupted message that carries
    audio, received while one chunk is scheduled and the output clock
    reads 0.25 s, cuts that chunk and starts its own at 0.25 s (not at
    the old cursor, 0.5 s); a message that carries the end of the user's
    sentence and ends the turn flushes the whole sentence. *)
Lemma interrupted_audio_and_final_fragment :
  let w := run fixed_rate_decoder true
             [StartClicked; UserMediaSettled true; Opened; ConnectSettled true;
              MessageReceived (audio_message "0123456789" false);
              MessageReceived (transcript_message (Some "my score "%string) None false);
              AudioClock 1 (1 # 4)] initial_world in
  let barge := audio_message "0123" true in
  let final := transcript_message (Some "dropped"%string) None true in
  let fifth := {| buffer_length := 4800; buffer_sampleRate := 24000 |} in
  (sourceNodes (browser (exec (handleMessage fixed_rate_decoder true barge) w)) !! 1%nat =
     Some (scheduled_node fifth (1 # 4)) /\
   audioSourcesRef (refs (exec (handleMessage fixed_rate_decoder true barge) w)) = [1%nat] /\
   exists n', lookup_node 0 (exec (handleMessage fixed_rate_decoder true barge) w) = Some n' /\
     playing n' = false) /\
  (In (entry user (js "my score dropped") 0)
      (messages (react (exec (handleMessage fixed_rate_decoder true final) w))) /\
   currentInput (react (exec (handleMessage fixed_rate_decoder true final) w)) = []).
Proof.
  intros w barge final fifth.
  pose proof (handleMessage_processes_fields_in_order fixed_rate_decoder true)
    as (_ & Hbarge & Hin & _).
  split.
  - destruct (Hbarge barge w 48%N (js "123") {| input := 0; output := 1 |}
                {| ctx_sampleRate := 24000; currentTime := 1 # 4; ctx_closed := false |}
                fifth eq_refl eq_refl eq_refl eq_refl eq_refl)
      as (Hnodes & _ & Hset & Hcut).
    split; [by rewrite Hnodes|]. split; [exact Hset|].
    refine (Hcut 0%nat (scheduled_node _ _) _ eq_refl). left; reflexivity.
  - exact (Hin final w {| transcription_text := Some (js "dropped") |}
             eq_refl eq_refl eq_refl).
Defined.

(** C3 at a concrete state: the only chunk has played to its end but
    its [ended] event is still to come, so it is still in the set.  In a
    browser that throws on stopping such a node, the bare [stop] throws;
    [stopAllAudio] does not, and it clears the set and the cursor. *)
Lemma stopping_an_ended_source_is_swallowed :
  let w := run fixed_rate_decoder true
             [StartClicked; UserMediaSettled true; Opened; ConnectSettled true;
              MessageReceived (audio_message "0123456789" false);
              PlaybackFinished 0] initial_world in
  audioSourcesRef (refs w) = [0%nat] /\
  result (source_stop true 0) w = Throw InvalidStateError /\
  result (stopAllAudio true) w = Normal tt /\
  audioSourcesRef (refs (exec (stopAllAudio true) w)) = [] /\
  nextStartTimeRef (refs (exec (stopAllAudio true) w)) = 0%Q /\
  lookup_node 0 (exec (stopAllAudio true) w) = lookup_node 0 w.
Proof.
  intros w.
  pose proof (stopAllAudio_clears_and_is_idempotent true w)
    as (Hret & Hset & Hcur & Hkept & _).
  split; [reflexivity|]. split; [reflexivity|].
  split; [exact Hret|]. split; [exact Hset|]. split; [exact Hcur|].
  exact (Hkept 0%nat _ eq_refl eq_refl).
Defined.

(** * Further properties at concrete inputs *)

(** A session that is connected and has heard the beginning of a
    sentence. *)
Lemma pending_fragment_survives_end_call :
  let w := run fixed_rate_decoder true
             [StartClicked; UserMediaSettled true; ConnectSettled true; Opened;
              MessageReceived (transcript_message (Some "my score"%string) None false)]
             initial_world in
  let w' := step fixed_rate_decoder true StopClicked w in
  status (react w') = IDLE /\
  currentInput (react w') = js "my score"%string /\
  view_bar (render (react w')) =
    Some {| bar_label := "Recognizing..."%string; bar_text := js "my score"%string |}.
Proof.
  intros w w'.
  destruct (transcript_changes_only_with_messages fixed_rate_decoder true
              StopClicked w eq_refl eq_refl) as (_ & Hin & _ & Hbar & _).
  split; [reflexivity|]. split; [exact Hin|exact Hbar].
Defined.

(** The service closes a connected session that has one chunk
    scheduled. *)
Lemma closing_a_connected_session_is_end_call :
  let w := run fixed_rate_decoder true
             [StartClicked; UserMediaSettled true; ConnectSettled true; Opened;
              MessageReceived (audio_message "abcd"%string false)]
             initial_world in
  refs_valid w = true /\
  step fixed_rate_decoder true Closed w = step fixed_rate_decoder true StopClicked w /\
  status (react (step fixed_rate_decoder true Closed w)) = IDLE.
Proof.
  intros w. split; [reflexivity|].
  split; [exact (close_notification_acts_as_end_call fixed_rate_decoder true w eq_refl)|].
  reflexivity.
Defined.

(** A message without [serverContent], while a fragment is pending. *)
Lemma message_without_serverContent_is_ignored :
  let w := run fixed_rate_decoder true
             [StartClicked; UserMediaSettled true; ConnectSettled true; Opened;
              MessageReceived (transcript_message (Some "my score"%string) None false)]
             initial_world in
  handleMessage fixed_rate_decoder true {| serverContent := None |} w = (Normal tt, w).
Proof.
  intros w.
  exact (message_without_content_is_ignored fixed_rate_decoder true
           {| serverContent := None |} w eq_refl eq_refl eq_refl eq_refl eq_refl).
Defined.

(** A message that ends the turn with the text "hi" and carries a
    model turn without [parts]: the handler rejects with a [TypeError]
    after the text went into the log. *)
Lemma model_turn_without_parts_rejects_after_the_flush :
  let m := {| serverContent := Some
                {| inputTranscription := Some {| transcription_text := Some (js "hi"%string) |};
                   outputTranscription := None;
                   turnComplete := true; interrupted := false;
                   modelTurn := Some {| parts := None |} |} |} in
  let w := run fixed_rate_decoder true
             [StartClicked; UserMediaSettled true; ConnectSettled true; Opened]
             initial_world in
  let w' := exec (handleMessage fixed_rate_decoder true m) w in
  result (handleMessage fixed_rate_decoder true m) w = Throw TypeError /\
  w' = before_audio_state true m w /\
  status (react w') = CONNECTED /\
  messages (react w') = [entry user (js "hi"%string) 0] /\
  sourceNodes (browser w') = [].
Proof.
  intros m w w'.
  destruct (handleMessage_fails_only_in_the_audio_branch fixed_rate_decoder true
              m w TypeError eq_refl) as (Hstate & Hstatus & _).
  split; [reflexivity|]. split; [exact Hstate|]. split; [exact Hstatus|].
  split; reflexivity.
Defined.

(** Two messages with audio, one handled in one go and one suspended,
    after "End Call" in a session with a chunk scheduled. *)
Lemma late_audio_after_end_call_is_dropped :
  let w := run fixed_rate_decoder true
             [StartClicked; UserMediaSettled true; ConnectSettled true; Opened;
              MessageReceived (audio_message "abcd"%string false)]
             initial_world in
  let stopped := step fixed_rate_decoder true StopClicked w in
  let late := [MessageReceived (audio_message "efgh"%string false);
               MessageSuspended (audio_message "ijkl"%string true)] in
  length (sourceNodes (browser w)) = 1%nat /\
  at_rest stopped /\
  sourceNodes (browser (run fixed_rate_decoder true late stopped)) =
    sourceNodes (browser stopped) /\
  audioSourcesRef (refs (run fixed_rate_decoder true late stopped)) = [].
Proof.
  intros w stopped late.
  assert (Hlate : Forall (fun ev => is_message ev = true) late)
    by (repeat constructor).
  destruct (messages_while_stopped_schedule_nothing fixed_rate_decoder true
              late w eq_refl Hlate) as (Hrest & Hrefs & Hbrowser).
  split; [reflexivity|]. split; [exact Hrest|].
  split; [exact (f_equal sourceNodes Hbrowser)|].
  exact (eq_trans (f_equal audioSourcesRef Hrefs) eq_refl).
Defined.

(** The connection fails after the microphone was granted, and the
    user retries: the first stream is replaced in [streamRef] and is
    still live after the second session was stopped. *)
Lemma retry_leaves_the_first_stream_live :
  let w := run fixed_rate_decoder true
             [StartClicked; UserMediaSettled true; ConnectSettled false;
              StartClicked; UserMediaSettled true]
             initial_world in
  let w' := run fixed_rate_decoder true [ConnectSettled true; Opened; StopClicked] w in
  streamRef (refs w) = Some 1%nat /\
  mediaStreams (browser w') !! 0%nat = Some {| tracks_stopped := false |} /\
  mediaStreams (browser w') !! 1%nat = Some {| tracks_stopped := true |} /\
  (exists c, audioContexts (browser w') !! 1%nat = Some c /\ ctx_closed c = false).
Proof.
  intros w w'.
  destruct (unreferenced_objects_are_never_released fixed_rate_decoder true
              [ConnectSettled true; Opened; StopClicked] w eq_refl)
    as (Hstream & _ & Hctx).
  split; [reflexivity|].
  split; [apply (Hstream 0%nat {| tracks_stopped := false |} eq_refl); discriminate|].
  split; [reflexivity|].
  apply (Hctx 1%nat {| ctx_sampleRate := 24000; currentTime := 0; ctx_closed := false |} eq_refl).
  intros p [= <-]. split; discriminate.
Defined.

(** A session that scheduled 200 ms of audio reports an error; the
    user retries at once.  The first chunk of the new session waits for
    the old cursor, although the new context's clock reads 0. *)
Lemma retry_after_error_starts_at_the_old_cursor :
  let w := run fixed_rate_decoder true
             [StartClicked; UserMediaSettled true; ConnectSettled true; Opened;
              MessageReceived (audio_message "abcd"%string false); Errored]
             initial_world in
  let w' := run fixed_rate_decoder true
              [StartClicked; UserMediaSettled true; ConnectSettled true; Opened;
               AudioClock 3 0; MessageReceived (audio_message "efgh"%string false)] w in
  status (react w) = ERROR /\
  (nextStartTimeRef (refs w) == 1 # 5)%Q /\
  audioContextsRef (refs w') = Some {| input := 2; output := 3 |} /\
  (exists n t, lookup_node 1 w' = Some n /\ node_when n = Some t /\ (t == 1 # 5)%Q) /\
  (nextStartTimeRef (refs w') == 2 # 5)%Q.
Proof.
  intros w w'.
  destruct (cursor_survives_a_restart fixed_rate_decoder true
              (audio_message "efgh"%string false) 0 w
              101%N (js "fgh"%string)
              {| buffer_length := 4800; buffer_sampleRate := 24000 |}
              eq_refl eq_refl eq_refl) as [Hnode Hcursor].
  split; [reflexivity|]. split; [reflexivity|]. split; [reflexivity|].
  split.
  - eexists _, _. split; [exact Hnode|]. split; reflexivity.
  - change (nextStartTimeRef (refs w') == 2 # 5)%Q. reflexivity.
Defined.

(** A chunk plays to its end and its [ended] event is dispatched; two
    more chunks arrive.  The first node is not in the set again. *)
Lemma finished_chunk_stays_out_of_the_set :
  let w := run fixed_rate_decoder true
             [StartClicked; UserMediaSettled true; ConnectSettled true; Opened;
              MessageReceived (audio_message "abcd"%string false);
              PlaybackFinished 0]
             initial_world in
  let later := [MessageReceived (audio_message "efgh"%string false);
                MessageReceived (audio_message "ijkl"%string false)] in
  let w' := run fixed_rate_decoder true later
              (step fixed_rate_decoder true (EndedDispatched 0) w) in
  audioSourcesRef (refs w) = [0%nat] /\
  ~ In 0%nat (audioSourcesRef (refs w')) /\
  audioSourcesRef (refs w') = [1%nat; 2%nat].
Proof.
  intros w later w'.
  split; [reflexivity|]. split; [|reflexivity].
  exact (ended_source_leaves_the_set_for_good fixed_rate_decoder true later w 0%nat
           (set_playback Finished
              (scheduled_node {| buffer_length := 4800; buffer_sampleRate := 24000 |}
                 (Qmax 0 0)))
           eq_refl eq_refl (or_introl eq_refl)).
Defined.

(** A message with audio is being decoded when "End Call" is pressed;
    the handler then resumes. *)
Lemma chunk_decoded_across_end_call_is_scheduled :
  let m := audio_message "abcd"%string false in
  let b := {| buffer_length := 4800; buffer_sampleRate := 24000 |} in
  let w := run fixed_rate_decoder true
             [StartClicked; UserMediaSettled true; ConnectSettled true; Opened]
             initial_world in
  let w' := run fixed_rate_decoder true
              [MessageSuspended m; StopClicked; DecodeResumed 1 b] w in
  result (handleMessage_suspend fixed_rate_decoder true m) w = Normal (Some (1%nat, b)) /\
  status (react w') = IDLE /\
  audioContextsRef (refs w') = None /\
  audioSourcesRef (refs w') = [0%nat] /\
  (nextStartTimeRef (refs w') == 1 # 5)%Q.
Proof.
  intros m b w w'.
  destruct (suspended_handler_outlives_end_call fixed_rate_decoder true m w
              {| input := 0; output := 1 |} 97%N (js "bcd"%string) b
              eq_refl eq_refl eq_refl eq_refl)
    as (Hsuspend & Hstatus & Hctx & Hset & _).
  split; [exact Hsuspend|]. split; [exact Hstatus|]. split; [exact Hctx|].
  split; [exact Hset|]. reflexivity.
Defined.
